(** * transhift/common: the packet framing protocol and its duplex pump

    A shallow embedding of [common/protocol.go]: the packet registry
    ([bodilessPackets], [fixedLengthPackets]), the [Message] value,
    [Message.MarshalBinary], and the two goroutines started by
    [MessageChannel], followed by the properties of the protocol. *)

From Stdlib Require Import String.
From Stdlib.Strings Require Import Byte.
From Stdlib Require Import List Arith Bool Lia.
Import ListNotations.

Local Open Scope list_scope.

(** ** Go values *)

(** [byte] and [uint8] are one type in Go; both are [Byte.byte] here. *)
Definition uint8 := byte.

(** A byte slice.  Go tells the nil slice from an empty one that was
    allocated, and the reader leaves [Body] nil for bodiless packets, so
    the model keeps the difference: [None] is nil. *)
Definition slice := option (list byte).

Definition len (s : slice) : nat :=
  match s with
  | None => 0
  | Some l => length l
  end.

Definition bytes_of (s : slice) : list byte :=
  match s with
  | None => []
  | Some l => l
  end.

(** [make([]byte, n)]: [n] zero bytes. *)
Definition make (n : nat) : list byte := repeat x00 n.

(** The conversion [byte(n)] of an [int]: the low eight bits. *)
Definition byte_of_int (n : nat) : byte :=
  match Byte.of_nat (n mod 256) with
  | Some b => b
  | None => x00
  end.

(** The errors the code meets: what a [net.Conn] reports, and the one
    [MarshalBinary] builds with [fmt.Errorf]. *)
Inductive error : Type :=
| io_EOF
| net_error (msg : string)
| body_too_long (bodyLen : nat).

(** ** Packet registry *)

Definition Packet := byte.

Definition UidLength : uint8 := x10.

Definition ClientType    : Packet := x00.
Definition UidAssignment : Packet := x01.
Definition UidRequest    : Packet := x02.
Definition PeerNotFound  : Packet := x03.
Definition UploaderReady : Packet := x04.
Definition FileName      : Packet := x05.
Definition FileSize      : Packet := x06.
Definition FileHash      : Packet := x07.
Definition Verification  : Packet := x08.
Definition ProtocolError : Packet := x09.
Definition InternalError : Packet := x0a.
Definition Halt          : Packet := x0b.

Definition bodilessPackets : list Packet :=
  [PeerNotFound; UploaderReady].

(** The map literal [fixedLengthPackets], key by key. *)
Definition fixedLengthPackets : list (Packet * uint8) :=
  [ (ClientType,    x01);
    (UidAssignment, UidLength);
    (UidRequest,    UidLength);
    (FileSize,      x08);
    (FileHash,      x20);
    (Verification,  x01) ].

(** [v, ok := m[k]] on a Go map. *)
Fixpoint map_index (m : list (Packet * uint8)) (k : Packet) : option uint8 :=
  match m with
  | [] => None
  | (k', v) :: m' => if Byte.eqb k' k then Some v else map_index m' k
  end.

(** [isBodiless]: the loop over [bodilessPackets]. *)
Fixpoint isBodiless_in (l : list Packet) (p : Packet) : bool :=
  match l with
  | [] => false
  | v :: l' => if Byte.eqb v p then true else isBodiless_in l' p
  end.

Definition isBodiless (p : Packet) : bool := isBodiless_in bodilessPackets p.

(** The framing policy of a kind, as encoder and decoder both decide it:
    first [isBodiless], then the fixed-length map, else variable. *)
Inductive FramingPolicy : Type :=
| bodiless
| fixed (N : nat)
| variable.

Definition framingPolicy (p : Packet) : FramingPolicy :=
  if isBodiless p then bodiless
  else match map_index fixedLengthPackets p with
       | Some n => fixed (Byte.to_nat n)
       | None => variable
       end.

(** ** Messages *)

(** The struct [Message]; its fields are [Packet] and [Body] in the
    source, renamed here because [Packet] is also the type. *)
Record Message : Type := mkMessage {
  msgPacket : Packet;
  msgBody : slice
}.

(** The zero value [Message{}], which a receive on a closed channel
    yields. *)
Definition zeroMessage : Message := mkMessage x00 None.

Definition NewMesssageWithByte (packet : Packet) (body : byte) : Message :=
  mkMessage packet (Some [body]).

(** The invariant of section 3 of the specification, on a message. *)
Definition framing_ok (m : Message) : bool :=
  match framingPolicy (msgPacket m) with
  | bodiless => len (msgBody m) =? 0
  | fixed N => len (msgBody m) =? N
  | variable => len (msgBody m) <=? 255
  end.

(** [Message.MarshalBinary].  [buff] is the [bytes.Buffer]; the result is
    the pair [(data, err)] the method returns. *)
Definition MarshalBinary (m : Message) : slice * option error :=
  let buff := [msgPacket m] in
  if negb (isBodiless (msgPacket m)) then
    match map_index fixedLengthPackets (msgPacket m) with
    | None =>
        let bodyLen := len (msgBody m) in
        if 255 <? bodyLen then (None, Some (body_too_long bodyLen))
        else
          let buff := buff ++ [byte_of_int (len (msgBody m))] in
          let buff := buff ++ bytes_of (msgBody m) in
          (Some buff, None)
    | Some _ =>
        let buff := buff ++ bytes_of (msgBody m) in
        (Some buff, None)
    end
  else (Some buff, None).

(** ** The connection *)

(** A [net.Conn], seen from the pump.  [rd] is what the peer sends, in the
    segments the transport hands over; once it is used up every [Read]
    fails with [rd_err].  [wquota] bounds the bytes the transport still
    accepts ([None]: no bound); a [Write] that does not fit writes what
    fits and fails with [wr_err].  [wlog] records the bytes each [Write]
    call got through. *)
Record Conn : Type := mkConn {
  RemoteAddr : string;
  rd : list (list byte);
  rd_err : error;
  wquota : option nat;
  wr_err : error;
  wlog : list (list byte)
}.

Definition set_rd (c : Conn) (r : list (list byte)) : Conn :=
  mkConn (RemoteAddr c) r (rd_err c) (wquota c) (wr_err c) (wlog c).

Definition set_wr (c : Conn) (q : option nat) (l : list (list byte)) : Conn :=
  mkConn (RemoteAddr c) (rd c) (rd_err c) q (wr_err c) l.

(** All bytes written to the connection so far. *)
Definition written (c : Conn) : list byte := concat (wlog c).

(** [conn.Read(p)]: as every [io.Reader], it fills at most [len(p)] bytes
    of [p] with what is at hand, and says how many; it does not wait for
    the buffer to be full.  A read into an empty buffer returns [0, nil].
    The result is the buffer after the call, the count and the error. *)
Definition Read (c : Conn) (p : list byte)
  : (list byte * nat * option error) * Conn :=
  match p with
  | [] => (([], 0, None), c)
  | _ :: _ =>
      match rd c with
      | [] => ((p, 0, Some (rd_err c)), c)
      | seg :: segs =>
          let got := firstn (length p) seg in
          let p' := got ++ skipn (length got) p in
          match skipn (length p) seg with
          | [] => ((p', length got, None), set_rd c segs)
          | rest => ((p', length got, None), set_rd c (rest :: segs))
          end
      end
  end.

(** [conn.Write(data)]: all of [data], or a prefix and an error. *)
Definition Write (c : Conn) (data : list byte) : (nat * option error) * Conn :=
  match wquota c with
  | None => ((length data, None), set_wr c None (wlog c ++ [data]))
  | Some q =>
      if length data <=? q
      then ((length data, None),
            set_wr c (Some (q - length data)) (wlog c ++ [data]))
      else ((q, Some (wr_err c)),
            set_wr c (Some 0) (wlog c ++ [firstn q data]))
  end.

(** ** The reader's decode procedure *)

(** What one turn of the reader's [for] loop comes to: a message for the
    inbound channel, or a read error, which ends the loop. *)
Inductive decoded : Type :=
| Frame (m : Message)
| ReadFailed (e : error).

(** The body of the reader's loop, from [packetBuff := make([]byte, 1)] to
    the send on [in].  The count each [Read] returns is dropped, as in the
    source ([_, err := conn.Read(...)]). *)
Definition readFrame (conn : Conn) : decoded * Conn :=
  let packetBuff := make 1 in
  let '((packetBuff, _, err), conn) := Read conn packetBuff in
  match err with
  | Some e => (ReadFailed e, conn)
  | None =>
      let packet : Packet := nth 0 packetBuff x00 in
      if isBodiless packet then (Frame (mkMessage packet None), conn)
      else
        let '(len_err, conn) :=
          match map_index fixedLengthPackets packet with
          | Some n => (inl n, conn)
          | None =>
              let lenBuff := make 1 in
              let '((lenBuff, _, err), conn) := Read conn lenBuff in
              match err with
              | Some e => (inr e, conn)
              | None => (inl (nth 0 lenBuff x00), conn)
              end
          end in
        match len_err with
        | inr e => (ReadFailed e, conn)
        | inl len =>
            let bodyBuff := make (Byte.to_nat len) in
            let '((bodyBuff, _, err), conn) := Read conn bodyBuff in
            match err with
            | Some e => (ReadFailed e, conn)
            | None => (Frame (mkMessage packet (Some bodyBuff)), conn)
            end
        end
  end.

(** The bytes [bs] at hand in front of the segments [more]. *)
Definition push (bs : list byte) (more : list (list byte)) : list (list byte) :=
  match bs with
  | [] => more
  | _ :: _ => bs :: more
  end.

(** A connection to the peer ["peer"] on which the segments [segs] will
    arrive and then the stream ends; [q] bounds what can be written. *)
Definition conn_of (segs : list (list byte)) (q : option nat) : Conn :=
  mkConn "peer"%string segs io_EOF q (net_error "broken pipe"%string) [].

(** ** The pump: [MessageChannel] *)

(** Go's run-time panics on channels. *)
Inductive panic : Type :=
| close_of_closed_channel
| send_on_closed_channel.

(** Both goroutines start with [defer close(in)] and [defer close(out)];
    when the function ends, [close(out)] runs first, then [close(in)].
    [p] is the panic the goroutine is unwinding with, if any: deferred
    calls still run then, and the program dies after the last one. *)
Inductive deferred : Type :=
| closing_out (p : option panic)
| closing_in (p : option panic)
| returned.

(** Where the reader goroutine stands: at the top of its loop, blocked in
    [in <- m], or leaving the function. *)
Inductive reader_pc : Type :=
| RRead
| RSend (m : Message)
| RExit (d : deferred).

(** Where the writer goroutine stands: blocked in [<-out], about to call
    [conn.Write(data)], or leaving the function. *)
Inductive writer_pc : Type :=
| WRecv
| WWrite (data : list byte)
| WExit (d : deferred).

(** What [handleReadError] and [handleWriteError] print to standard
    error: the remote address of the connection and the error. *)
Inductive log_line : Type :=
| read_error_line (addr : string) (e : error)
| write_error_line (addr : string) (e : error).

(** The pump and what surrounds it.  The channels are unbuffered, so all
    a channel has for state is whether it is closed.  [inbox] is what the
    application has received from [in], in order. *)
Record Pump : Type := mkPump {
  conn : Conn;
  in_closed : bool;
  out_closed : bool;
  reader : reader_pc;
  writer : writer_pc;
  inbox : list Message;
  stderr : list log_line;
  crashed : option panic
}.

(** [MessageChannel(conn)]: two open channels and two goroutines at the
    top of their loops. *)
Definition MessageChannel (c : Conn) : Pump :=
  mkPump c false false RRead WRecv [] [] None.

(** One deferred call.  The result is the two flags, what is left to run
    and, when the goroutine ends panicking, the panic that ends the
    program. *)
Definition run_deferred (d : deferred) (inc outc : bool)
  : option (bool * bool * deferred * option panic) :=
  match d with
  | closing_out p =>
      if outc then Some (inc, outc, closing_in (Some close_of_closed_channel), None)
      else Some (inc, true, closing_in p, None)
  | closing_in p =>
      if inc then Some (inc, outc, returned, Some close_of_closed_channel)
      else Some (true, outc, returned, p)
  | returned => None
  end.

(** The writer takes [m] from [out] and marshals it. *)
Definition writer_received (s : Pump) (m : Message) : Pump :=
  match MarshalBinary m with
  | (_, Some err) =>
      mkPump (conn s) (in_closed s) (out_closed s) (reader s)
             (WExit (closing_out None)) (inbox s)
             (stderr s ++ [write_error_line (RemoteAddr (conn s)) err])
             (crashed s)
  | (data, None) =>
      mkPump (conn s) (in_closed s) (out_closed s) (reader s)
             (WWrite (bytes_of data)) (inbox s) (stderr s) (crashed s)
  end.

(** The reader goroutine moves on its own. *)
Definition reader_step (s : Pump) : option Pump :=
  match reader s with
  | RRead =>
      match readFrame (conn s) with
      | (ReadFailed err, c) =>
          Some (mkPump c (in_closed s) (out_closed s)
                       (RExit (closing_out None)) (writer s) (inbox s)
                       (stderr s ++ [read_error_line (RemoteAddr (conn s)) err])
                       (crashed s))
      | (Frame m, c) =>
          Some (mkPump c (in_closed s) (out_closed s) (RSend m) (writer s)
                       (inbox s) (stderr s) (crashed s))
      end
  | RSend m =>
      if in_closed s
      then Some (mkPump (conn s) (in_closed s) (out_closed s)
                        (RExit (closing_out (Some send_on_closed_channel)))
                        (writer s) (inbox s) (stderr s) (crashed s))
      else None
  | RExit d =>
      match run_deferred d (in_closed s) (out_closed s) with
      | Some (inc, outc, d', cr) =>
          Some (mkPump (conn s) inc outc (RExit d') (writer s) (inbox s)
                       (stderr s) cr)
      | None => None
      end
  end.

(** The writer goroutine moves on its own.  A receive on a closed channel
    does not block: it yields the zero [Message]. *)
Definition writer_step (s : Pump) : option Pump :=
  match writer s with
  | WRecv =>
      if out_closed s then Some (writer_received s zeroMessage) else None
  | WWrite data =>
      match Write (conn s) data with
      | ((_, Some err), c) =>
          Some (mkPump c (in_closed s) (out_closed s) (reader s)
                       (WExit (closing_out None)) (inbox s)
                       (stderr s ++ [write_error_line (RemoteAddr (conn s)) err])
                       (crashed s))
      | ((_, None), c) =>
          Some (mkPump c (in_closed s) (out_closed s) (reader s) WRecv
                       (inbox s) (stderr s) (crashed s))
      end
  | WExit d =>
      match run_deferred d (in_closed s) (out_closed s) with
      | Some (inc, outc, d', cr) =>
          Some (mkPump (conn s) inc outc (reader s) (WExit d') (inbox s)
                       (stderr s) cr)
      | None => None
      end
  end.

(** The application executes [out <- m]: a panic when [out] is closed,
    else a hand-over to the writer waiting in [<-out]. *)
Definition app_send (m : Message) (s : Pump) : option Pump :=
  if out_closed s
  then Some (mkPump (conn s) (in_closed s) (out_closed s) (reader s)
                    (writer s) (inbox s) (stderr s)
                    (Some send_on_closed_channel))
  else match writer s with
       | WRecv => Some (writer_received s m)
       | _ => None
       end.

(** The application executes [<-in]: the message of the reader waiting in
    [in <- m], or nothing new when [in] is closed. *)
Definition app_recv (s : Pump) : option Pump :=
  if in_closed s then Some s
  else match reader s with
       | RSend m =>
           Some (mkPump (conn s) (in_closed s) (out_closed s) RRead
                        (writer s) (inbox s ++ [m]) (stderr s) (crashed s))
       | _ => None
       end.

(** The moves of the system; a schedule is a list of them, and stands
    for one way the goroutines and the application interleave.  A move of
    the reader at the top of its loop is one whole turn of the decode
    procedure: only the reader reads from the connection, so nothing can
    come between its [Read] calls that they would see.  The receive on
    [out] and the [Write] that follows are two moves, and so are the two
    deferred calls of each goroutine. *)
Inductive action : Type :=
| reader_moves
| writer_moves
| enqueue (m : Message)
| dequeue.

(** One move; [None] when the move is not possible (the goroutine is
    blocked or gone, or the program has died). *)
Definition step (a : action) (s : Pump) : option Pump :=
  match crashed s with
  | Some _ => None
  | None =>
      match a with
      | reader_moves => reader_step s
      | writer_moves => writer_step s
      | enqueue m => app_send m s
      | dequeue => app_recv s
      end
  end.

Fixpoint run (sched : list action) (s : Pump) : option Pump :=
  match sched with
  | [] => Some s
  | a :: sched' =>
      match step a s with
      | Some s' => run sched' s'
      | None => None
      end
  end.

(** The messages a schedule enqueues on [out], in order. *)
Fixpoint enqueued (sched : list action) : list Message :=
  match sched with
  | [] => []
  | enqueue m :: sched' => m :: enqueued sched'
  | _ :: sched' => enqueued sched'
  end.

(** The encodings of a list of messages, one per message, when all of
    them encode. *)
Fixpoint encode_all (ms : list Message) : option (list (list byte)) :=
  match ms with
  | [] => Some []
  | m :: ms' =>
      match MarshalBinary m, encode_all ms' with
      | (Some data, None), Some rest => Some (data :: rest)
      | _, _ => None
      end
  end.

(** What the reader's loop can put on [in]: a nil body for a bodiless
    kind, an allocated body of the registered length for a fixed-length
    kind, and a body of at most 255 bytes for any other kind. *)
Definition reader_frame_ok (m : Message) : bool :=
  match framingPolicy (msgPacket m), msgBody m with
  | bodiless, None => true
  | bodiless, Some _ => false
  | fixed N, Some l => length l =? N
  | fixed N, None => false
  | variable, b => len b <=? 255
  end.

(** The schedule that lets the writer take one message from the closed
    [out] and write it, [k] times over. *)
Fixpoint writer_spins (k : nat) : list action :=
  match k with
  | 0 => []
  | S k' => writer_moves :: writer_moves :: writer_spins k'
  end.

(** The invariant of the inbound direction: what the application has
    received, and what the reader holds in [in <- m], has the shape the
    reader gives to frames. *)
Definition inbound_inv (s : Pump) : Prop :=
  Forall (fun m => reader_frame_ok m = true) (inbox s) /\
  match reader s with
  | RSend m => reader_frame_ok m = true
  | _ => True
  end.

(** The invariant of the outbound direction while [out] is open, for the
    messages [enq] enqueued so far on a connection whose write log was
    [w0] at the start: the [Write] calls made are the encodings of the
    messages, one call per message and in order, the last encoding being
    still in the writer's hands when it stands before [conn.Write]. *)
Definition outbound_inv (w0 : list (list byte)) (enq : list Message) (s : Pump)
  : Prop :=
  out_closed s = false ->
  match writer s with
  | WRecv =>
      exists datas,
        encode_all enq = Some datas /\ wlog (conn s) = w0 ++ datas
  | WWrite d =>
      exists datas,
        encode_all enq = Some (datas ++ [d]) /\ wlog (conn s) = w0 ++ datas
  | WExit _ => True
  end.

(** ** Further vocabulary for the properties *)

(** The number of bytes a frame of [m] takes on the wire. *)
Definition wire_size (m : Message) : nat :=
  match framingPolicy (msgPacket m) with
  | bodiless => 1
  | fixed _ => 1 + len (msgBody m)
  | variable => 2 + len (msgBody m)
  end.

(** The message the reader builds for a frame of [m]: the body field is
    left nil for a bodiless kind and is an allocated buffer otherwise. *)
Definition as_decoded (m : Message) : Message :=
  mkMessage (msgPacket m)
            (if isBodiless (msgPacket m) then None
             else Some (bytes_of (msgBody m))).

(** All the bytes the peer still has to deliver. *)
Definition stream (c : Conn) : list byte := concat (rd c).

(** The schedule in which the reader decodes a frame and the application
    takes it from [in], [n] times over. *)
Fixpoint deliveries (n : nat) : list action :=
  match n with
  | 0 => []
  | S n' => reader_moves :: dequeue :: deliveries n'
  end.

(** A goroutine that has run its deferred calls to the end. *)
Definition reader_returned (s : Pump) : bool :=
  match reader s with
  | RExit returned => true
  | _ => false
  end.

Definition writer_returned (s : Pump) : bool :=
  match writer s with
  | WExit returned => true
  | _ => false
  end.

(** A goroutine that is out of its loop. *)
Definition reader_exiting (s : Pump) : bool :=
  match reader s with
  | RExit _ => true
  | _ => false
  end.

Definition writer_exiting (s : Pump) : bool :=
  match writer s with
  | WExit _ => true
  | _ => false
  end.

(** Once a goroutine has returned, [in] is closed; once both have, the
    program has died of the second [close]. *)
Definition shutdown_inv (s : Pump) : Prop :=
  (reader_returned s || writer_returned s = true -> in_closed s = true) /\
  (reader_returned s && writer_returned s = true ->
   crashed s = Some close_of_closed_channel).

(** As long as nothing has been printed, the pump is fully open. *)
Definition quiet_inv (s : Pump) : Prop :=
  stderr s = [] ->
  in_closed s = false /\ out_closed s = false /\ crashed s = None /\
  reader_exiting s = false /\ writer_exiting s = false.


(** The moves of the inbound direction, and those of the outbound one. *)
Definition inbound_move (a : action) : bool :=
  match a with
  | reader_moves | dequeue => true
  | _ => false
  end.

(** The schedule in which the application enqueues the messages [ms]
    one by one and the writer writes each before the next is enqueued. *)
Fixpoint sends (ms : list Message) : list action :=
  match ms with
  | [] => []
  | m :: ms' => enqueue m :: writer_moves :: sends ms'
  end.

(** ** The earlier revision of the file

    The file also holds an earlier revision of the protocol: five packet
    kinds, of which [Ping] and [Pong] have no body and all others are
    length-prefixed, one channel, and [Mtob] for the encoding of a
    bodiless packet.  Its [Message] has the same two fields (unexported
    there), so the record is shared. *)
Module Rev0.

Definition Ping           : Packet := x00.
Definition Pong           : Packet := x01.
Definition ClientType     : Packet := x02.
Definition FileInfo       : Packet := x03.
Definition ChecksumStatus : Packet := x04.

Definition bodilessPackets : list Packet := [Ping; Pong].

(** [isBodiless]: the loop over [bodilessPackets], testing [p == bp]. *)
Fixpoint isBodiless_in (l : list Packet) (p : Packet) : bool :=
  match l with
  | [] => false
  | bp :: l' => if Byte.eqb p bp then true else isBodiless_in l' p
  end.

Definition isBodiless (p : Packet) : bool := isBodiless_in bodilessPackets p.

Definition Mtob (msg : Packet) : list byte := [msg].

(** The body of the loop of that revision's [MessageChannel]. *)
Definition readFrame (conn : Conn) : decoded * Conn :=
  let packetBuff := make 1 in
  let '((packetBuff, _, err), conn) := Read conn packetBuff in
  match err with
  | Some e => (ReadFailed e, conn)
  | None =>
      let packet : Packet := nth 0 packetBuff x00 in
      if isBodiless packet then (Frame (mkMessage packet None), conn)
      else
        let lenBuff := make 1 in
        let '((lenBuff, _, err), conn) := Read conn lenBuff in
        match err with
        | Some e => (ReadFailed e, conn)
        | None =>
            let len := nth 0 lenBuff x00 in
            let bodyBuff := make (Byte.to_nat len) in
            let '((bodyBuff, _, err), conn) := Read conn bodyBuff in
            match err with
            | Some e => (ReadFailed e, conn)
            | None => (Frame (mkMessage packet (Some bodyBuff)), conn)
            end
        end
  end.

End Rev0.

(** * Properties *)

(** ** The concrete scenarios of the specification *)

Example readFrame_UidAssignment :
  fst (readFrame (conn_of [x01 :: repeat xaa 16] None))
  = Frame (mkMessage UidAssignment (Some (repeat xaa 16))).
Proof. reflexivity. Qed.

Example MarshalBinary_ClientType :
  MarshalBinary (mkMessage ClientType (Some [x01])) = (Some [x00; x01], None).
Proof. reflexivity. Qed.

Example MarshalBinary_FileName :
  MarshalBinary (mkMessage FileName (Some [x61; x2e; x74; x78; x74]))
  = (Some [x05; x05; x61; x2e; x74; x78; x74], None).
Proof. reflexivity. Qed.

(** ** Go values and the registry *)

Lemma len_0_bytes_of (s : slice) : len s = 0 -> bytes_of s = [].
Proof.
  destruct s as [l|]; simpl; [|reflexivity].
  destruct l; simpl; [reflexivity | discriminate].
Qed.

Lemma len_bytes_of (s : slice) : length (bytes_of s) = len s.
Proof. destruct s; reflexivity. Qed.

Lemma to_nat_byte_of_int (n : nat) : n <= 255 -> Byte.to_nat (byte_of_int n) = n.
Proof.
  intros Hn. unfold byte_of_int.
  rewrite Nat.mod_small by lia.
  destruct (Byte.of_nat n) as [b|] eqn:E.
  - now apply Byte.to_of_nat.
  - apply Byte.of_nat_None_iff in E. lia.
Qed.

Lemma framingPolicy_bodiless (p : Packet) :
  framingPolicy p = bodiless <-> isBodiless p = true.
Proof.
  unfold framingPolicy. destruct (isBodiless p).
  - tauto.
  - destruct (map_index fixedLengthPackets p); split; discriminate.
Qed.

Lemma framingPolicy_fixed (p : Packet) (N : nat) :
  framingPolicy p = fixed N <->
  isBodiless p = false /\
  exists n, map_index fixedLengthPackets p = Some n /\ Byte.to_nat n = N.
Proof.
  unfold framingPolicy. destruct (isBodiless p).
  - split; [discriminate | intros [? _]; discriminate].
  - destruct (map_index fixedLengthPackets p) as [n|].
    + split.
      * intros [= <-]. eauto.
      * intros [_ (n' & [= <-] & <-)]. reflexivity.
    + split; [discriminate | intros [_ (n' & ? & _)]; discriminate].
Qed.

Lemma framingPolicy_variable (p : Packet) :
  framingPolicy p = variable <->
  isBodiless p = false /\ map_index fixedLengthPackets p = None.
Proof.
  unfold framingPolicy. destruct (isBodiless p).
  - split; [discriminate | intros [? _]; discriminate].
  - destruct (map_index fixedLengthPackets p).
    + split; [discriminate | intros [_ ?]; discriminate].
    + tauto.
Qed.

(** ** Reading from the connection *)

Lemma set_rd_rd (c : Conn) : set_rd c (rd c) = c.
Proof. now destruct c. Qed.

Lemma set_rd_set_rd (c : Conn) (r r' : list (list byte)) :
  set_rd (set_rd c r) r' = set_rd c r'.
Proof. reflexivity. Qed.

Lemma rd_set_rd (c : Conn) (r : list (list byte)) : rd (set_rd c r) = r.
Proof. reflexivity. Qed.

(** A [Read] that finds its whole buffer's worth of bytes at hand fills
    the buffer with them and leaves the rest. *)
Lemma Read_at_hand (c : Conn) (p bs tail : list byte) (more : list (list byte)) :
  rd c = push (bs ++ tail) more ->
  length bs = length p ->
  Read c p = ((bs, length bs, None), set_rd c (push tail more)).
Proof.
  intros Hrd Hlen. destruct p as [|b0 p].
  - destruct bs; [|discriminate]. simpl in *. now rewrite <- Hrd, set_rd_rd.
  - destruct bs as [|b bs]; [discriminate|].
    unfold Read. simpl in Hrd. rewrite Hrd.
    rewrite <- Hlen.
    assert (Hf : firstn (length (b :: bs)) ((b :: bs) ++ tail) = b :: bs).
    { rewrite firstn_app, firstn_all, Nat.sub_diag. simpl. now rewrite app_nil_r. }
    assert (Hs : skipn (length (b :: bs)) ((b :: bs) ++ tail) = tail).
    { rewrite skipn_app, skipn_all, Nat.sub_diag. reflexivity. }
    change ((b :: bs) ++ tail) with (b :: bs ++ tail) in Hf, Hs.
    cbv zeta. rewrite Hf, Hs.
    rewrite Hlen, skipn_all, app_nil_r.
    destruct tail; reflexivity.
Qed.

Lemma length_make (n : nat) : length (make n) = n.
Proof. apply repeat_length. Qed.

(** The first [Read] of a frame, when the kind byte is at hand. *)
Lemma Read_kind (c : Conn) (p : Packet) (tail : list byte) (more : list (list byte)) :
  rd c = push (p :: tail) more ->
  Read c (make 1) = (([p], 1, None), set_rd c (push tail more)).
Proof.
  intros Hrd. now apply (Read_at_hand c (make 1) [p] tail more).
Qed.

(** ** Decoding one frame whose bytes are at hand *)

Lemma readFrame_bodiless (c : Conn) (p : Packet) (tail : list byte)
      (more : list (list byte)) :
  isBodiless p = true ->
  rd c = push (p :: tail) more ->
  readFrame c = (Frame (mkMessage p None), set_rd c (push tail more)).
Proof.
  intros Hb Hrd. unfold readFrame.
  rewrite (Read_kind c p tail more Hrd). simpl nth. now rewrite Hb.
Qed.

Lemma readFrame_fixed (c : Conn) (p : Packet) (n : uint8) (body tail : list byte)
      (more : list (list byte)) :
  isBodiless p = false ->
  map_index fixedLengthPackets p = Some n ->
  length body = Byte.to_nat n ->
  rd c = push (p :: body ++ tail) more ->
  readFrame c = (Frame (mkMessage p (Some body)), set_rd c (push tail more)).
Proof.
  intros Hb Hfix Hlen Hrd. unfold readFrame.
  rewrite (Read_kind c p (body ++ tail) more Hrd). simpl nth.
  rewrite Hb, Hfix.
  rewrite (Read_at_hand _ (make (Byte.to_nat n)) body tail more);
    [reflexivity | reflexivity | now rewrite length_make].
Qed.

Lemma readFrame_variable (c : Conn) (p : Packet) (L : uint8) (body tail : list byte)
      (more : list (list byte)) :
  isBodiless p = false ->
  map_index fixedLengthPackets p = None ->
  length body = Byte.to_nat L ->
  rd c = push (p :: L :: body ++ tail) more ->
  readFrame c = (Frame (mkMessage p (Some body)), set_rd c (push tail more)).
Proof.
  intros Hb Hfix Hlen Hrd. unfold readFrame.
  rewrite (Read_kind c p (L :: body ++ tail) more Hrd). simpl nth.
  rewrite Hb, Hfix.
  rewrite (Read_kind _ L (body ++ tail) more) by reflexivity. simpl nth.
  rewrite (Read_at_hand _ (make (Byte.to_nat L)) body tail more);
    [reflexivity | reflexivity | now rewrite length_make].
Qed.

(** ** Encoding *)

Lemma MarshalBinary_bodiless (m : Message) :
  isBodiless (msgPacket m) = true ->
  MarshalBinary m = (Some [msgPacket m], None).
Proof. intros H. unfold MarshalBinary. now rewrite H. Qed.

Lemma MarshalBinary_fixed (m : Message) (n : uint8) :
  isBodiless (msgPacket m) = false ->
  map_index fixedLengthPackets (msgPacket m) = Some n ->
  MarshalBinary m = (Some (msgPacket m :: bytes_of (msgBody m)), None).
Proof. intros Hb Hf. unfold MarshalBinary. now rewrite Hb, Hf. Qed.

Lemma MarshalBinary_variable (m : Message) :
  isBodiless (msgPacket m) = false ->
  map_index fixedLengthPackets (msgPacket m) = None ->
  MarshalBinary m =
  if 255 <? len (msgBody m)
  then (None, Some (body_too_long (len (msgBody m))))
  else (Some (msgPacket m :: byte_of_int (len (msgBody m)) :: bytes_of (msgBody m)),
        None).
Proof. intros Hb Hf. unfold MarshalBinary. now rewrite Hb, Hf. Qed.

(** C1.  Round trip: a message that satisfies the framing policy of its
    kind (empty body for a bodiless kind, exactly N bytes for fixed(N),
    at most 255 bytes for a variable kind) encodes without error, and the
    reader's decode procedure, run on a connection where the encoded bytes
    are at hand, yields a message with the same kind and the same body
    bytes, having consumed exactly the encoded bytes. *)
Theorem decode_encode_roundtrip (m : Message) :
  framing_ok m = true ->
  exists data,
    MarshalBinary m = (Some data, None) /\
    forall (c : Conn) (tail : list byte) (more : list (list byte)),
      rd c = push (data ++ tail) more ->
      exists m',
        readFrame c = (Frame m', set_rd c (push tail more)) /\
        msgPacket m' = msgPacket m /\
        bytes_of (msgBody m') = bytes_of (msgBody m).
Proof.
  unfold framing_ok. intros Hok.
  destruct (framingPolicy (msgPacket m)) as [|N|] eqn:Hpol.
  - apply framingPolicy_bodiless in Hpol.
    apply Nat.eqb_eq, len_0_bytes_of in Hok.
    exists [msgPacket m]. split; [now apply MarshalBinary_bodiless|].
    intros c tail more Hrd. eexists. split.
    + apply (readFrame_bodiless c (msgPacket m) tail more Hpol Hrd).
    + now rewrite Hok.
  - apply framingPolicy_fixed in Hpol. destruct Hpol as (Hb & n & Hfix & Hn).
    apply Nat.eqb_eq in Hok.
    exists (msgPacket m :: bytes_of (msgBody m)).
    split; [now apply MarshalBinary_fixed with n|].
    intros c tail more Hrd. eexists. split.
    + apply (readFrame_fixed c (msgPacket m) n (bytes_of (msgBody m)) tail more
                             Hb Hfix); [|exact Hrd].
      rewrite len_bytes_of, Hn. exact Hok.
    + auto.
  - apply framingPolicy_variable in Hpol. destruct Hpol as (Hb & Hfix).
    apply Nat.leb_le in Hok.
    exists (msgPacket m :: byte_of_int (len (msgBody m)) :: bytes_of (msgBody m)).
    split.
    + rewrite MarshalBinary_variable by assumption.
      destruct (Nat.ltb_spec 255 (len (msgBody m))); [lia | reflexivity].
    + intros c tail more Hrd. eexists. split.
      * apply (readFrame_variable c (msgPacket m) (byte_of_int (len (msgBody m)))
                                  (bytes_of (msgBody m)) tail more Hb Hfix);
          [|exact Hrd].
        now rewrite len_bytes_of, to_nat_byte_of_int.
      * auto.
Qed.

Lemma decode_encode_roundtrip_witness :
  exists m',
    readFrame (conn_of [[x05; x05; x61; x2e; x74; x78; x74; x03]] None)
    = (Frame m', set_rd (conn_of [[x05; x05; x61; x2e; x74; x78; x74; x03]] None)
                        [[x03]]) /\
    msgPacket m' = FileName /\
    bytes_of (msgBody m') = [x61; x2e; x74; x78; x74].
Proof.
  destruct (decode_encode_roundtrip
              (mkMessage FileName (Some [x61; x2e; x74; x78; x74])) eq_refl)
    as (data & Henc & Hdec).
  injection Henc as <-.
  exact (Hdec (conn_of [[x05; x05; x61; x2e; x74; x78; x74; x03]] None)
              [x03] [] eq_refl).
Defined.

(** The kinds above [Halt] are in neither table. *)
Lemma undeclared_kind_variable (p : Packet) :
  11 < Byte.to_nat p -> framingPolicy p = variable.
Proof.
  destruct p; vm_compute; intros H; try reflexivity;
    repeat (apply le_S_n in H); inversion H.
Qed.

(** C5.  [MarshalBinary] fails exactly when the kind is variable-framed
    and the body is longer than 255 bytes; it then returns nil data and
    the error, and in every other case it returns the encoded bytes and
    no error (the function is pure: it touches no connection).  A [Halt]
    message with a 255-byte body encodes to 0x0B, 0xFF and the body. *)
Theorem MarshalBinary_fails_iff (m : Message) (body : list byte)
        (Hbody : length body = 255) :
  (snd (MarshalBinary m) <> None <->
   framingPolicy (msgPacket m) = variable /\ 255 < len (msgBody m)) /\
  (snd (MarshalBinary m) <> None <->
   MarshalBinary m = (None, Some (body_too_long (len (msgBody m))))) /\
  (snd (MarshalBinary m) = None <->
   exists data, MarshalBinary m = (Some data, None)) /\
  MarshalBinary (mkMessage Halt (Some body)) = (Some (x0b :: xff :: body), None).
Proof.
  assert (Hcases :
    (framingPolicy (msgPacket m) = variable /\ 255 < len (msgBody m) /\
     MarshalBinary m = (None, Some (body_too_long (len (msgBody m))))) \/
    (~ (framingPolicy (msgPacket m) = variable /\ 255 < len (msgBody m)) /\
     exists data, MarshalBinary m = (Some data, None))).
  { destruct (framingPolicy (msgPacket m)) as [|N|] eqn:Hpol.
    - right. split; [intros [? _]; discriminate|].
      apply framingPolicy_bodiless in Hpol.
      rewrite MarshalBinary_bodiless by assumption. eauto.
    - right. split; [intros [? _]; discriminate|].
      apply framingPolicy_fixed in Hpol. destruct Hpol as (Hb & n & Hfix & _).
      rewrite (MarshalBinary_fixed m n) by assumption. eauto.
    - apply framingPolicy_variable in Hpol. destruct Hpol as (Hb & Hfix).
      rewrite MarshalBinary_variable by assumption.
      destruct (Nat.ltb_spec 255 (len (msgBody m))).
      + left. auto.
      + right. split; [lia | eauto]. }
  split; [split | split; [split | split; [split|]]].
  - intros Herr. destruct Hcases as [(? & ? & _)|(_ & data & E)]; [auto|].
    rewrite E in Herr. now elim Herr.
  - intros Hv. destruct Hcases as [(_ & _ & E)|(Hn & _)]; [|tauto].
    rewrite E. discriminate.
  - intros Herr. destruct Hcases as [(_ & _ & E)|(_ & data & E)]; [auto|].
    rewrite E in Herr. now elim Herr.
  - intros E. rewrite E. discriminate.
  - intros Hnone. destruct Hcases as [(_ & _ & E)|(_ & data & E)]; [|eauto].
    rewrite E in Hnone. discriminate.
  - intros (data & E). now rewrite E.
  - rewrite MarshalBinary_variable by reflexivity.
    simpl. rewrite Hbody. reflexivity.
Qed.

Lemma MarshalBinary_fails_iff_witness :
  MarshalBinary (mkMessage Halt (Some (repeat x61 255)))
  = (Some (x0b :: xff :: repeat x61 255), None).
Proof.
  exact (proj2 (proj2 (proj2
    (MarshalBinary_fails_iff (mkMessage Halt (Some (repeat x61 256)))
                             (repeat x61 255) eq_refl)))).
Defined.

(** C7.  A kind that is neither bodiless nor in the fixed-length map, as
    every undeclared value above 0x0B is, is decoded as variable-framed:
    the decoder reads one length byte L and then L body bytes, and
    produces the message with that kind and body. *)
Theorem readFrame_unlisted_kind_variable
        (p : Packet) (L : uint8) (body tail : list byte)
        (more : list (list byte)) (c : Conn) :
  (11 < Byte.to_nat p -> framingPolicy p = variable) /\
  (framingPolicy p = variable ->
   length body = Byte.to_nat L ->
   rd c = push (p :: L :: body ++ tail) more ->
   readFrame c = (Frame (mkMessage p (Some body)), set_rd c (push tail more))).
Proof.
  split; [apply undeclared_kind_variable|].
  intros Hpol Hlen Hrd.
  apply framingPolicy_variable in Hpol. destruct Hpol as (Hb & Hfix).
  now apply readFrame_variable with L.
Qed.

Lemma readFrame_unlisted_kind_variable_witness :
  framingPolicy xf0 = variable /\
  readFrame (conn_of [[xf0; x02; x68; x69; x03]] None)
  = (Frame (mkMessage xf0 (Some [x68; x69])),
     set_rd (conn_of [[xf0; x02; x68; x69; x03]] None) [[x03]]).
Proof.
  pose proof (readFrame_unlisted_kind_variable
                xf0 x02 [x68; x69] [x03] []
                (conn_of [[xf0; x02; x68; x69; x03]] None)) as [Hv Hdec].
  assert (Hpol : framingPolicy xf0 = variable).
  { apply Hv. vm_compute. lia. }
  split; [exact Hpol|].
  exact (Hdec Hpol eq_refl eq_refl).
Defined.

(** C8.  A [PeerNotFound] message encodes to the single byte 0x03,
    whatever its body field holds, and decoding a stream that begins with
    0x03 yields the [PeerNotFound] message with a nil body and consumes
    that one byte only. *)
Theorem PeerNotFound_single_byte (b : slice) (c : Conn) (tail : list byte)
        (more : list (list byte)) :
  MarshalBinary (mkMessage PeerNotFound b) = (Some [x03], None) /\
  (rd c = push (x03 :: tail) more ->
   readFrame c = (Frame (mkMessage PeerNotFound None), set_rd c (push tail more))).
Proof.
  split; [reflexivity|].
  intros Hrd. now apply readFrame_bodiless.
Qed.

Lemma PeerNotFound_single_byte_witness :
  readFrame (conn_of [[x03; x00; x01]] None)
  = (Frame (mkMessage PeerNotFound None),
     set_rd (conn_of [[x03; x00; x01]] None) [[x00; x01]]).
Proof.
  exact (proj2 (PeerNotFound_single_byte None (conn_of [[x03; x00; x01]] None)
                                         [x00; x01] []) eq_refl).
Defined.

(** ** Construction *)

(** C4, as stated, fails: the constructor performs no validation.  With
    kind [FileHash], whose body must be 32 bytes, it returns a message
    with a one-byte body instead of failing. *)
Lemma NewMesssageWithByte_FileHash_unchecked :
  exists m,
    NewMesssageWithByte FileHash x00 = m /\
    framingPolicy FileHash = fixed 32 /\
    len (msgBody m) = 1 /\
    framing_ok m = false.
Proof. eexists. repeat split. Qed.

(** C4, amended.  [NewMesssageWithByte] takes a kind and one body byte,
    checks nothing and cannot fail: it returns the message with that kind
    and that one-byte body.  The result satisfies the framing policy of
    its kind exactly when the kind is fixed(1) or variable, and
    [MarshalBinary] encodes it without error in every case. *)
Theorem NewMesssageWithByte_no_validation (packet : Packet) (body : byte) :
  msgPacket (NewMesssageWithByte packet body) = packet /\
  msgBody (NewMesssageWithByte packet body) = Some [body] /\
  (framing_ok (NewMesssageWithByte packet body) = true <->
   framingPolicy packet = fixed 1 \/ framingPolicy packet = variable) /\
  snd (MarshalBinary (NewMesssageWithByte packet body)) = None.
Proof.
  split; [reflexivity|]. split; [reflexivity|]. split.
  - unfold framing_ok. simpl.
    destruct (framingPolicy packet) as [|N|]; simpl.
    + split; [discriminate | intros [?|?]; discriminate].
    + split.
      * intros H. left. destruct N as [|[|N]]; simpl in H; congruence.
      * intros [[= ->]|?]; [reflexivity | discriminate].
    + split; auto.
  - destruct (isBodiless packet) eqn:Hb.
    + now rewrite MarshalBinary_bodiless.
    + destruct (map_index fixedLengthPackets packet) as [n|] eqn:Hf.
      * now rewrite (MarshalBinary_fixed _ n).
      * now rewrite MarshalBinary_variable.
Qed.

(** ** Short reads *)

(** C6 at a failing input.  The segment [05 03 61] announces a
    [FileName] body of three bytes and brings one.  The body [Read]
    returns that one byte and no error; the loop does not look at the
    count, so the message goes to the inbound channel with the body
    [61 00 00] and nothing is printed.  The bytes [62 63] that arrive
    next are then taken for the start of a new frame, of kind 0x62 and
    length 0x63, whose body read meets the end of the stream. *)
Theorem short_read_delivers_partial_frame :
  let c := conn_of [[x05; x03; x61]; [x62; x63]] None in
  readFrame c
  = (Frame (mkMessage FileName (Some [x61; x00; x00])), set_rd c [[x62; x63]]) /\
  (exists s,
    run [reader_moves; dequeue] (MessageChannel c) = Some s /\
    inbox s = [mkMessage FileName (Some [x61; x00; x00])] /\
    stderr s = [] /\
    reader s = RRead /\
    rd (conn s) = [[x62; x63]]) /\
  (exists s,
    run [reader_moves; dequeue; reader_moves] (MessageChannel c) = Some s /\
    inbox s = [mkMessage FileName (Some [x61; x00; x00])] /\
    stderr s = [read_error_line "peer" io_EOF] /\
    reader s = RExit (closing_out None) /\
    rd (conn s) = []).
Proof.
  split; [reflexivity|].
  split; eexists; (split; [vm_compute; reflexivity|]); repeat split.
Qed.

(** A transport error, on the other hand, does end the loop: the error is
    printed with the remote address and nothing is sent on [in]. *)
Lemma read_error_ends_reader (s s' : Pump) (e : error) (c : Conn) :
  crashed s = None ->
  reader s = RRead ->
  readFrame (conn s) = (ReadFailed e, c) ->
  step reader_moves s = Some s' ->
  reader s' = RExit (closing_out None) /\
  inbox s' = inbox s /\
  stderr s' = stderr s ++ [read_error_line (RemoteAddr (conn s)) e].
Proof.
  intros Hc Hr Hf. unfold step, reader_step. rewrite Hc, Hr, Hf.
  intros [= <-]. auto.
Qed.

(** ** Teardown *)

(** C2 at a failing input.  The peer has closed the connection: reads
    fail and so do writes.  Whichever goroutine fails first closes both
    channels; the other one then ends too and its deferred [close(out)]
    finds the channel closed, which is a run-time panic.  First the
    reader fails first, then the writer (on a body that is too long). *)
Theorem teardown_closes_twice :
  (exists s,
     run [reader_moves; reader_moves; reader_moves;
          writer_moves; writer_moves; writer_moves; writer_moves]
         (MessageChannel (conn_of [] (Some 0))) = Some s /\
     in_closed s = true /\ out_closed s = true /\
     reader s = RExit returned /\ writer s = WExit returned /\
     crashed s = Some close_of_closed_channel) /\
  (exists s,
     run [enqueue (mkMessage Halt (Some (make 256)));
          writer_moves; writer_moves;
          reader_moves; reader_moves; reader_moves]
         (MessageChannel (conn_of [] (Some 0))) = Some s /\
     in_closed s = true /\ out_closed s = true /\
     reader s = RExit returned /\ writer s = WExit returned /\
     crashed s = Some close_of_closed_channel).
Proof.
  split; eexists; (split; [vm_compute; reflexivity|]); repeat split.
Qed.

(** With [out] closed and the connection still writable, two moves of the
    writer put one more zero byte on the wire, and the writer is back in
    [<-out]. *)
Lemma writer_spins_write (k : nat) : forall s : Pump,
  crashed s = None ->
  out_closed s = true ->
  writer s = WRecv ->
  wquota (conn s) = None ->
  exists s',
    run (writer_spins k) s = Some s' /\
    crashed s' = None /\
    in_closed s' = in_closed s /\
    out_closed s' = true /\
    writer s' = WRecv /\
    reader s' = reader s /\
    stderr s' = stderr s /\
    wlog (conn s') = wlog (conn s) ++ repeat [x00] k.
Proof.
  induction k as [|k IH]; intros s Hc Ho Hw Hq.
  - exists s. simpl. rewrite app_nil_r. repeat split; auto.
  - cbn [writer_spins run]. unfold step at 1. rewrite Hc.
    unfold writer_step at 1. rewrite Hw, Ho.
    unfold writer_received. change (MarshalBinary zeroMessage) with (Some [x00], @None error).
    cbv iota beta. unfold step at 1. cbn [crashed]. rewrite Hc.
    unfold writer_step at 1. cbn [writer conn bytes_of].
    unfold Write. rewrite Hq. cbv iota beta.
    match goal with |- context [run (writer_spins k) ?t] => destruct (IH t) as (s' & Hrun & H1 & H2 & H3 & H4 & H5 & H6 & H7) end;
      try (cbn; auto; fail).
    exists s'. split; [exact Hrun|].
    cbn in H2, H5, H6, H7. repeat split; auto.
    rewrite H7, <- app_assoc. reflexivity.
Qed.

Lemma concat_repeat_singleton (b : byte) (k : nat) :
  concat (repeat [b] k) = repeat b k.
Proof. induction k; simpl; congruence. Qed.

(** C3 at a failing input.  The peer has closed its sending side: reads
    fail with end of stream, writes still go through.  The reader prints
    the error and closes both channels.  The writer does not stop: every
    receive on the closed [out] yields the zero message, which encodes to
    the byte 0x00, and that byte is written; after any number [k] of such
    turns, [k] zero bytes are on the wire.  An application that enqueues
    on [out] in that state panics. *)
Theorem writer_writes_after_teardown (k : nat) (m : Message) :
  exists s s',
    run ([reader_moves; reader_moves; reader_moves] ++ writer_spins k)
        (MessageChannel (conn_of [] None)) = Some s /\
    stderr s = [read_error_line "peer" io_EOF] /\
    in_closed s = true /\ out_closed s = true /\
    reader s = RExit returned /\
    crashed s = None /\
    written (conn s) = repeat x00 k /\
    step (enqueue m) s = Some s' /\
    crashed s' = Some send_on_closed_channel.
Proof.
  destruct (writer_spins_write k
              (mkPump (conn_of [] None) true true (RExit returned) WRecv []
                      [read_error_line "peer" io_EOF] None))
    as (s & Hrun & Hc & Hi & Ho & Hw & Hr & He & Hl); try reflexivity.
  exists s.
  exists (mkPump (conn s) (in_closed s) (out_closed s) (reader s) (writer s)
                 (inbox s) (stderr s) (Some send_on_closed_channel)).
  split; [exact Hrun|].
  repeat split; auto.
  - unfold written. rewrite Hl. simpl. apply concat_repeat_singleton.
  - unfold step, app_send. rewrite Hc, Ho. reflexivity.
Qed.

(** ** What a read leaves untouched *)

Lemma Read_conn (c : Conn) (p : list byte) :
  exists r, snd (Read c p) = set_rd c r.
Proof.
  unfold Read. destruct p as [|b p].
  - exists (rd c). simpl. now rewrite set_rd_rd.
  - destruct (rd c) as [|seg segs] eqn:Hrd.
    + exists (rd c). simpl. now rewrite set_rd_rd.
    + cbv zeta. destruct (skipn (length (b :: p)) seg); eexists; reflexivity.
Qed.

Lemma Read_length (c : Conn) (p : list byte) :
  length (fst (fst (fst (Read c p)))) = length p.
Proof.
  unfold Read. destruct p as [|b p]; [reflexivity|].
  destruct (rd c) as [|seg segs]; [reflexivity|].
  cbv zeta.
  assert (H : length (firstn (length (b :: p)) seg ++
                       skipn (length (firstn (length (b :: p)) seg)) (b :: p))
              = length (b :: p)).
  { rewrite length_app, length_skipn, length_firstn. lia. }
  destruct (skipn (length (b :: p)) seg); exact H.
Qed.

Ltac read_step c p :=
  let pb := fresh "buf" in
  let n := fresh "n" in
  let e := fresh "err" in
  let c' := fresh "conn" in
  let E := fresh "ERead" in
  let r := fresh "r" in
  let Hc := fresh "Hconn" in
  let Hl := fresh "Hlen" in
  pose proof (Read_conn c p) as [r Hc];
  pose proof (Read_length c p) as Hl;
  destruct (Read c p) as [[[pb n] e] c'] eqn:E;
  cbn [fst snd] in Hc, Hl; subst c'.

Lemma readFrame_conn (c : Conn) :
  exists r, snd (readFrame c) = set_rd c r.
Proof.
  unfold readFrame.
  read_step c (make 1).
  destruct err; [eexists; reflexivity|].
  destruct (isBodiless (nth 0 buf x00)); [eexists; reflexivity|].
  destruct (map_index fixedLengthPackets (nth 0 buf x00)) as [n0|].
  - read_step (set_rd c r) (make (Byte.to_nat n0)).
    destruct err; eexists; reflexivity.
  - read_step (set_rd c r) (make 1).
    destruct err; [eexists; reflexivity|].
    read_step (set_rd (set_rd c r) r0) (make (Byte.to_nat (nth 0 buf0 x00))).
    destruct err; eexists; reflexivity.
Qed.

Lemma readFrame_wlog (c c' : Conn) (d : decoded) :
  readFrame c = (d, c') -> wlog c' = wlog c.
Proof.
  intros H. destruct (readFrame_conn c) as [r Hr].
  rewrite H in Hr. simpl in Hr. now subst c'.
Qed.

(** Every message the decode procedure produces has the shape its kind
    asks for. *)
Lemma readFrame_frame_ok (c c' : Conn) (m : Message) :
  readFrame c = (Frame m, c') -> reader_frame_ok m = true.
Proof.
  unfold readFrame.
  read_step c (make 1).
  destruct err; [discriminate|].
  destruct (isBodiless (nth 0 buf x00)) eqn:Hb.
  - intros [= <- _]. unfold reader_frame_ok, framingPolicy. cbn [msgPacket msgBody len].
    now rewrite Hb.
  - destruct (map_index fixedLengthPackets (nth 0 buf x00)) as [n0|] eqn:Hf.
    + read_step (set_rd c r) (make (Byte.to_nat n0)).
      destruct err; [discriminate|].
      intros [= <- _]. unfold reader_frame_ok, framingPolicy. cbn [msgPacket msgBody len].
      rewrite Hb, Hf. rewrite Hlen0, length_make. apply Nat.eqb_refl.
    + read_step (set_rd c r) (make 1).
      destruct err; [discriminate|].
      read_step (set_rd (set_rd c r) r0) (make (Byte.to_nat (nth 0 buf0 x00))).
      destruct err; [discriminate|].
      intros [= <- _]. unfold reader_frame_ok, framingPolicy. cbn [msgPacket msgBody len].
      rewrite Hb, Hf. rewrite Hlen1, length_make.
      apply Nat.leb_le, Byte.to_nat_bounded.
Qed.

(** ** The inbound direction *)

Ltac step_cases H :=
  unfold step, reader_step, writer_step, app_send, app_recv, writer_received
    in H;
  repeat match type of H with
         | context [match ?x with _ => _ end] => destruct x eqn:?
         | context [if ?x then _ else _] => destruct x eqn:?
         end;
  try discriminate H;
  injection H as <-.

Lemma inbound_inv_step (a : action) (s s' : Pump) :
  inbound_inv s -> step a s = Some s' -> inbound_inv s'.
Proof.
  unfold inbound_inv. intros [Hbox Hpc] H.
  destruct a; step_cases H; cbn [inbox reader]; subst;
    try (split; [assumption | exact I]);
    try (split; assumption).
  - split; [assumption | eapply readFrame_frame_ok; eassumption].
  - split; [|exact I].
    apply Forall_app. split; [assumption|]. now constructor.
Qed.

Lemma inbound_inv_run (sched : list action) : forall s s' : Pump,
  inbound_inv s -> run sched s = Some s' -> inbound_inv s'.
Proof.
  induction sched as [|a sched IH]; intros s s' Hinv Hrun; simpl in Hrun.
  - now injection Hrun as <-.
  - destruct (step a s) as [s1|] eqn:Hstep; [|discriminate].
    eapply IH; [|exact Hrun]. eapply inbound_inv_step; eassumption.
Qed.

(** The length byte of a variable frame decides the length of the body
    the decode procedure allocates. *)
Lemma readFrame_variable_len (c c' : Conn) (p : Packet) (L : uint8)
      (rest : list byte) (more : list (list byte)) (m : Message) :
  framingPolicy p = variable ->
  rd c = push (p :: L :: rest) more ->
  readFrame c = (Frame m, c') ->
  msgPacket m = p /\ len (msgBody m) = Byte.to_nat L.
Proof.
  intros Hpol Hrd. apply framingPolicy_variable in Hpol.
  destruct Hpol as (Hb & Hf).
  unfold readFrame.
  rewrite (Read_kind c p (L :: rest) more Hrd). simpl nth.
  rewrite Hb, Hf.
  rewrite (Read_kind _ L rest more) by reflexivity. simpl nth.
  read_step (set_rd (set_rd c (push (L :: rest) more)) (push rest more))
            (make (Byte.to_nat L)).
  destruct err; [discriminate|].
  intros [= <- _]. cbn [msgPacket msgBody len].
  now rewrite Hlen, length_make.
Qed.

Lemma fixed_lengths (p : Packet) (N : nat) :
  framingPolicy p = fixed N -> In N [1; 16; 8; 32].
Proof.
  destruct p; vm_compute; intros [= <-]; auto 6.
Qed.

(** C10.  Every message the reader loop delivers to the inbound channel
    satisfies the framing invariant of its kind: a nil body for a
    bodiless kind, a body of exactly the registered length (one of 1,
    16, 8 and 32) for a fixed-length kind, and for any other kind a body
    of at most 255 bytes, whose length is the length byte that was read.
    This holds in every run of the pump, whether or not the reads fill
    their buffers. *)
Theorem delivered_frames_well_formed
        (c : Conn) (sched : list action) (s : Pump) :
  run sched (MessageChannel c) = Some s ->
  Forall (fun m => reader_frame_ok m = true) (inbox s) /\
  (forall p N, framingPolicy p = fixed N -> In N [1; 16; 8; 32]) /\
  (forall c0 c1 p L rest more m,
      framingPolicy p = variable ->
      rd c0 = push (p :: L :: rest) more ->
      readFrame c0 = (Frame m, c1) ->
      msgPacket m = p /\ len (msgBody m) = Byte.to_nat L /\
      len (msgBody m) <= 255).
Proof.
  intros Hrun. split; [|split].
  - apply (inbound_inv_run sched (MessageChannel c) s); [|exact Hrun].
    split; [constructor | exact I].
  - exact fixed_lengths.
  - intros c0 c1 p L rest more m Hpol Hrd Hdec.
    destruct (readFrame_variable_len c0 c1 p L rest more m Hpol Hrd Hdec)
      as [Hp Hl].
    repeat split; auto. rewrite Hl. apply Byte.to_nat_bounded.
Qed.


Lemma delivered_frames_well_formed_witness :
  Forall (fun m => reader_frame_ok m = true)
         [mkMessage FileName (Some [x61; x62]); mkMessage PeerNotFound None].
Proof.
  exact (proj1 (delivered_frames_well_formed
                  (conn_of [[x05; x02; x61; x62]; [x03]] None)
                  [reader_moves; dequeue; reader_moves; dequeue]
                  (mkPump (set_rd (conn_of [[x05; x02; x61; x62]; [x03]] None) [])
                          false false RRead WRecv
                          [mkMessage FileName (Some [x61; x62]);
                           mkMessage PeerNotFound None] [] None)
                  eq_refl)).
Defined.

(** ** The outbound direction *)

Lemma MarshalBinary_no_error_data (m : Message) (data : slice) :
  MarshalBinary m = (data, None) -> exists d, data = Some d.
Proof.
  unfold MarshalBinary.
  destruct (negb (isBodiless (msgPacket m))).
  - destruct (map_index fixedLengthPackets (msgPacket m)).
    + intros [= <-]. eauto.
    + destruct (255 <? len (msgBody m)); [discriminate|].
      cbv zeta. intros [= <-]. eauto.
  - intros [= <-]. eauto.
Qed.

Lemma encode_all_snoc (ms : list Message) (m : Message) :
  encode_all (ms ++ [m]) =
  match encode_all ms, MarshalBinary m with
  | Some datas, (Some data, None) => Some (datas ++ [data])
  | _, _ => None
  end.
Proof.
  induction ms as [|m0 ms IH]; simpl.
  - destruct (MarshalBinary m) as [[d|] [e|]]; reflexivity.
  - rewrite IH.
    destruct (MarshalBinary m0) as [[d0|] [e0|]]; try reflexivity;
      destruct (encode_all ms); try reflexivity;
      destruct (MarshalBinary m) as [[d|] [e|]]; reflexivity.
Qed.

Lemma Write_ok_wlog (c c' : Conn) (data : list byte) (n : nat) :
  Write c data = ((n, None), c') -> wlog c' = wlog c ++ [data].
Proof.
  unfold Write. destruct (wquota c) as [q|].
  - destruct (length data <=? q); [|discriminate].
    now intros [= _ <-].
  - now intros [= _ <-].
Qed.

Lemma run_deferred_out_open (d d' : deferred) (inc outc inc' outc' : bool)
      (cr : option panic) :
  run_deferred d inc outc = Some (inc', outc', d', cr) ->
  outc' = false -> outc = false.
Proof.
  destruct d; simpl; [destruct outc | destruct inc | discriminate];
    intros [= <- <- <- <-]; auto.
Qed.

Lemma outbound_inv_step (w0 : list (list byte)) (enq : list Message)
      (a : action) (s s' : Pump) :
  outbound_inv w0 enq s -> step a s = Some s' ->
  outbound_inv w0 (enq ++ enqueued [a]) s'.
Proof.
  unfold outbound_inv. intros Hinv H.
  destruct a; cbn [enqueued]; rewrite ?app_nil_r.
  all: step_cases H; cbn [out_closed writer conn]; intros Hopen;
    try discriminate Hopen; try exact I;
    try (apply Hinv; assumption);
    try (apply Hinv; eapply run_deferred_out_open; eassumption).
  - erewrite readFrame_wlog by eassumption. now apply Hinv.
  - erewrite readFrame_wlog by eassumption. now apply Hinv.
  - specialize (Hinv Hopen).
    destruct Hinv as (datas & Henc & Hlog).
    exists (datas ++ [data]). split; [exact Henc|].
    erewrite Write_ok_wlog by eassumption.
    now rewrite Hlog, app_assoc.
  - specialize (Hinv Hopen).
    destruct Hinv as (datas & Henc & Hlog).
    exists datas. split; [|exact Hlog].
    rewrite encode_all_snoc, Henc.
    match goal with
    | HM : MarshalBinary m = (?d, None) |- _ =>
        destruct (MarshalBinary_no_error_data m d HM) as [d' ->]; rewrite HM
    end.
    reflexivity.
Qed.

Lemma outbound_inv_run (w0 : list (list byte)) (sched : list action) :
  forall (enq : list Message) (s s' : Pump),
    outbound_inv w0 enq s -> run sched s = Some s' ->
    outbound_inv w0 (enq ++ enqueued sched) s'.
Proof.
  induction sched as [|a sched IH]; intros enq s s' Hinv Hrun.
  - simpl in Hrun. injection Hrun as <-. now rewrite app_nil_r.
  - cbn [run] in Hrun.
    destruct (step a s) as [s1|] eqn:Hstep; [|discriminate].
    pose proof (outbound_inv_step w0 enq a s s1 Hinv Hstep) as H1.
    specialize (IH _ _ _ H1 Hrun).
    rewrite <- app_assoc in IH.
    replace (enqueued [a] ++ enqueued sched) with (enqueued (a :: sched)) in IH;
      [exact IH|].
    destruct a; reflexivity.
Qed.

(** C9.  In every run of the pump, as long as [out] is open and the
    writer is back waiting on it, every message enqueued so far has been
    encoded without error and the [Write] calls made on the connection
    are the encodings of the enqueued messages, one call per message and
    in the order of enqueueing; the bytes written are therefore their
    concatenation in that order. *)
Theorem outbound_order_preserved (c : Conn) (sched : list action) (s : Pump) :
  run sched (MessageChannel c) = Some s ->
  out_closed s = false ->
  writer s = WRecv ->
  exists datas,
    encode_all (enqueued sched) = Some datas /\
    wlog (conn s) = wlog c ++ datas /\
    written (conn s) = written c ++ concat datas.
Proof.
  intros Hrun Hopen Hw.
  assert (H0 : outbound_inv (wlog c) [] (MessageChannel c)).
  { intros _. exists []. simpl. now rewrite app_nil_r. }
  pose proof (outbound_inv_run (wlog c) sched [] _ _ H0 Hrun) as H.
  specialize (H Hopen). rewrite Hw in H. simpl in H.
  destruct H as (datas & Henc & Hlog).
  exists datas. repeat split; auto.
  unfold written. now rewrite Hlog, concat_app.
Qed.

Lemma outbound_order_preserved_witness :
  exists datas,
    encode_all [mkMessage ClientType (Some [x01]);
                mkMessage FileName (Some [x61; x2e; x74; x78; x74]);
                mkMessage UploaderReady None] = Some datas /\
    [[x00; x01]; [x05; x05; x61; x2e; x74; x78; x74]; [x04]]
    = wlog (conn_of [] None) ++ datas /\
    [x00; x01; x05; x05; x61; x2e; x74; x78; x74; x04]
    = written (conn_of [] None) ++ concat datas.
Proof.
  exact (outbound_order_preserved
           (conn_of [] None)
           [enqueue (mkMessage ClientType (Some [x01])); writer_moves;
            enqueue (mkMessage FileName (Some [x61; x2e; x74; x78; x74]));
            reader_moves; writer_moves;
            enqueue (mkMessage UploaderReady None); writer_moves]
           (mkPump (set_wr (conn_of [] None) None
                      [[x00; x01]; [x05; x05; x61; x2e; x74; x78; x74]; [x04]])
                   false false (RExit (closing_out None)) WRecv []
                   [read_error_line "peer" io_EOF] None)
           eq_refl eq_refl eq_refl).
Defined.


(** * Further properties of the code *)

(** ** The registry *)

(** X4.  The framing policy of every byte value, as the two tables and
    the order of the tests decide it: kinds 0x03 and 0x04 are bodiless,
    kinds 0x00, 0x01, 0x02, 0x06, 0x07 and 0x08 are fixed with lengths 1,
    16, 16, 8, 32 and 1, and every other value, declared or not, is
    variable.  No kind is in both tables. *)
Theorem framingPolicy_table (p : Packet) :
  framingPolicy p =
  match Byte.to_nat p with
  | 0 => fixed 1
  | 1 => fixed 16
  | 2 => fixed 16
  | 3 => bodiless
  | 4 => bodiless
  | 6 => fixed 8
  | 7 => fixed 32
  | 8 => fixed 1
  | _ => variable
  end /\
  (isBodiless p = true -> map_index fixedLengthPackets p = None).
Proof.
  destruct p; split; try reflexivity; vm_compute; congruence.
Qed.

Lemma framingPolicy_table_witness :
  map_index fixedLengthPackets UploaderReady = None.
Proof.
  exact (proj2 (framingPolicy_table UploaderReady) eq_refl).
Defined.

(** ** The shape of an encoding *)

Lemma MarshalBinary_shape (m : Message) (data : list byte) :
  MarshalBinary m = (Some data, None) ->
  match framingPolicy (msgPacket m) with
  | bodiless => data = [msgPacket m]
  | fixed _ => data = msgPacket m :: bytes_of (msgBody m)
  | variable =>
      len (msgBody m) <= 255 /\
      data = msgPacket m :: byte_of_int (len (msgBody m)) :: bytes_of (msgBody m)
  end.
Proof.
  destruct (framingPolicy (msgPacket m)) as [|N|] eqn:Hpol.
  - apply framingPolicy_bodiless in Hpol.
    rewrite MarshalBinary_bodiless by assumption. congruence.
  - apply framingPolicy_fixed in Hpol. destruct Hpol as (Hb & n & Hfix & _).
    rewrite (MarshalBinary_fixed m n) by assumption. congruence.
  - apply framingPolicy_variable in Hpol. destruct Hpol as (Hb & Hfix).
    rewrite MarshalBinary_variable by assumption.
    destruct (Nat.ltb_spec 255 (len (msgBody m))); [discriminate|].
    intros [= <-]. split; [lia | reflexivity].
Qed.

(** X2.  The layout of every encoding [MarshalBinary] returns: the kind
    byte first; nothing more for a bodiless kind; the body for a fixed
    kind; for a variable kind one byte whose value is the length of the
    body, then the body, 257 bytes at most in all.  The encoding is
    [wire_size m] bytes long. *)
Theorem MarshalBinary_layout (m : Message) (data : list byte) :
  MarshalBinary m = (Some data, None) ->
  exists rest,
    data = msgPacket m :: rest /\
    length data = wire_size m /\
    match framingPolicy (msgPacket m) with
    | bodiless => rest = []
    | fixed _ => rest = bytes_of (msgBody m)
    | variable =>
        exists L,
          rest = L :: bytes_of (msgBody m) /\
          Byte.to_nat L = len (msgBody m) /\
          length data <= 257
    end.
Proof.
  intros H. apply MarshalBinary_shape in H. unfold wire_size.
  destruct (framingPolicy (msgPacket m)) as [|N|].
  - subst data. eexists. repeat split.
  - subst data. eexists. split; [reflexivity|]. split; [|reflexivity].
    simpl. now rewrite len_bytes_of.
  - destruct H as [Hle ->]. eexists. split; [reflexivity|].
    split; [simpl; now rewrite len_bytes_of|].
    eexists. split; [reflexivity|].
    split; [now apply to_nat_byte_of_int|].
    simpl. rewrite len_bytes_of. lia.
Qed.

Lemma MarshalBinary_layout_witness :
  exists rest,
    [x0b; x02; x68; x69] = Halt :: rest /\
    length [x0b; x02; x68; x69] = wire_size (mkMessage Halt (Some [x68; x69])) /\
    exists L,
      rest = L :: [x68; x69] /\ Byte.to_nat L = 2 /\
      length [x0b; x02; x68; x69] <= 257.
Proof.
  exact (MarshalBinary_layout (mkMessage Halt (Some [x68; x69]))
                              [x0b; x02; x68; x69] eq_refl).
Defined.

(** X1.  The encoding is injective on well-framed messages: two messages
    that satisfy the framing policy of their kinds and encode to the same
    bytes have the same kind and the same body bytes. *)
Theorem MarshalBinary_injective (m1 m2 : Message) :
  framing_ok m1 = true ->
  framing_ok m2 = true ->
  MarshalBinary m1 = MarshalBinary m2 ->
  msgPacket m1 = msgPacket m2 /\ bytes_of (msgBody m1) = bytes_of (msgBody m2).
Proof.
  intros Hok1 Hok2 Heq.
  destruct (MarshalBinary m1) as [[d1|] [e1|]] eqn:E1.
  - exfalso. unfold MarshalBinary in E1.
    destruct (negb (isBodiless (msgPacket m1))); [|discriminate].
    destruct (map_index fixedLengthPackets (msgPacket m1)); [discriminate|].
    destruct (255 <? len (msgBody m1)); discriminate.
  - symmetry in Heq.
    pose proof (MarshalBinary_shape m1 d1 E1) as S1.
    pose proof (MarshalBinary_shape m2 d1 Heq) as S2.
    assert (Hk : msgPacket m1 = msgPacket m2).
    { destruct (framingPolicy (msgPacket m1)), (framingPolicy (msgPacket m2));
        repeat match goal with H : _ /\ _ |- _ => destruct H end;
        subst d1; congruence. }
    split; [exact Hk|].
    unfold framing_ok in Hok1, Hok2. rewrite <- Hk in S2, Hok2.
    destruct (framingPolicy (msgPacket m1)).
    + apply Nat.eqb_eq, len_0_bytes_of in Hok1.
      apply Nat.eqb_eq, len_0_bytes_of in Hok2. congruence.
    + subst d1. congruence.
    + destruct S1 as [_ ->]. destruct S2 as [_ S2]. congruence.
  - exfalso. unfold framing_ok in Hok1.
    destruct (framingPolicy (msgPacket m1)) as [|N|] eqn:Hpol.
    + apply framingPolicy_bodiless in Hpol.
      rewrite MarshalBinary_bodiless in E1 by assumption. discriminate.
    + apply framingPolicy_fixed in Hpol. destruct Hpol as (Hb & n & Hfix & _).
      rewrite (MarshalBinary_fixed m1 n) in E1 by assumption. discriminate.
    + apply framingPolicy_variable in Hpol. destruct Hpol as (Hb & Hfix).
      rewrite MarshalBinary_variable in E1 by assumption.
      apply Nat.leb_le in Hok1.
      destruct (Nat.ltb_spec 255 (len (msgBody m1))); [lia | discriminate].
  - exfalso. unfold MarshalBinary in E1.
    destruct (negb (isBodiless (msgPacket m1))); [|discriminate].
    destruct (map_index fixedLengthPackets (msgPacket m1)); [discriminate|].
    destruct (255 <? len (msgBody m1)); discriminate.
Qed.

Lemma MarshalBinary_injective_witness :
  msgPacket (mkMessage UploaderReady None)
  = msgPacket (mkMessage UploaderReady (Some [])) /\
  bytes_of (msgBody (mkMessage UploaderReady None))
  = bytes_of (msgBody (mkMessage UploaderReady (Some []))).
Proof.
  exact (MarshalBinary_injective (mkMessage UploaderReady None)
                                 (mkMessage UploaderReady (Some []))
                                 eq_refl eq_refl eq_refl).
Defined.

(** ** What neither side checks *)

(** X3.  [MarshalBinary] does not compare the body of a fixed-length kind
    with the registered length: the message encodes without error to the
    kind byte and the body as it is.  The reader then takes the first N
    bytes of an over-long body for the body and leaves the others in the
    stream, where they are read as the next frame. *)
Theorem fixed_length_not_checked
        (m : Message) (N : nat) (b1 b2 tail : list byte)
        (more : list (list byte)) (c : Conn) :
  framingPolicy (msgPacket m) = fixed N ->
  bytes_of (msgBody m) = b1 ++ b2 ->
  length b1 = N ->
  rd c = push ((msgPacket m :: bytes_of (msgBody m)) ++ tail) more ->
  MarshalBinary m = (Some (msgPacket m :: bytes_of (msgBody m)), None) /\
  readFrame c = (Frame (mkMessage (msgPacket m) (Some b1)),
                 set_rd c (push (b2 ++ tail) more)).
Proof.
  intros Hpol Hbody Hlen Hrd.
  apply framingPolicy_fixed in Hpol. destruct Hpol as (Hb & n & Hfix & Hn).
  split; [now apply MarshalBinary_fixed with n|].
  apply (readFrame_fixed c (msgPacket m) n b1 (b2 ++ tail) more Hb Hfix);
    [congruence|].
  rewrite Hrd, Hbody. simpl. now rewrite <- app_assoc.
Qed.

Lemma fixed_length_not_checked_witness :
  MarshalBinary (mkMessage Verification (Some [x00; x03]))
  = (Some [x08; x00; x03], None) /\
  readFrame (conn_of [[x08; x00; x03]] None)
  = (Frame (mkMessage Verification (Some [x00])),
     set_rd (conn_of [[x08; x00; x03]] None) [[x03]]).
Proof.
  exact (fixed_length_not_checked
           (mkMessage Verification (Some [x00; x03])) 1 [x00] [x03] [] []
           (conn_of [[x08; x00; x03]] None)
           eq_refl eq_refl eq_refl eq_refl).
Defined.

(** ** Decoding what was encoded *)

Lemma framing_ok_bodiless_bytes (m : Message) :
  framing_ok m = true -> isBodiless (msgPacket m) = true ->
  bytes_of (msgBody m) = [].
Proof.
  unfold framing_ok. intros Hok Hb.
  apply framingPolicy_bodiless in Hb. rewrite Hb in Hok.
  now apply Nat.eqb_eq, len_0_bytes_of in Hok.
Qed.

(** The decode procedure on the encoding of a well-framed message. *)
Lemma readFrame_encoded (m : Message) (data tail : list byte)
      (more : list (list byte)) (c : Conn) :
  framing_ok m = true ->
  MarshalBinary m = (Some data, None) ->
  rd c = push (data ++ tail) more ->
  readFrame c = (Frame (as_decoded m), set_rd c (push tail more)).
Proof.
  intros Hok Henc Hrd. apply MarshalBinary_shape in Henc.
  unfold framing_ok in Hok. unfold as_decoded.
  destruct (framingPolicy (msgPacket m)) as [|N|] eqn:Hpol.
  - apply framingPolicy_bodiless in Hpol. subst data. rewrite Hpol.
    exact (readFrame_bodiless c (msgPacket m) tail more Hpol Hrd).
  - apply framingPolicy_fixed in Hpol. destruct Hpol as (Hb & n & Hfix & Hn).
    subst data. rewrite Hb. apply Nat.eqb_eq in Hok.
    apply (readFrame_fixed c (msgPacket m) n (bytes_of (msgBody m)) tail more
                           Hb Hfix); [|exact Hrd].
    rewrite len_bytes_of. congruence.
  - apply framingPolicy_variable in Hpol. destruct Hpol as (Hb & Hfix).
    destruct Henc as [Hle ->]. rewrite Hb.
    apply (readFrame_variable c (msgPacket m) (byte_of_int (len (msgBody m)))
                              (bytes_of (msgBody m)) tail more Hb Hfix);
      [|exact Hrd].
    now rewrite len_bytes_of, to_nat_byte_of_int.
Qed.

(** X5.  For a kind that is fixed(1) or variable, the reader decodes the
    encoding of the message made by [NewMesssageWithByte] to that very
    message, body field included, and consumes the encoding and no
    more. *)
Theorem NewMesssageWithByte_roundtrip
        (packet : Packet) (body : byte) (data tail : list byte)
        (more : list (list byte)) (c : Conn) :
  framingPolicy packet = fixed 1 \/ framingPolicy packet = variable ->
  MarshalBinary (NewMesssageWithByte packet body) = (Some data, None) ->
  rd c = push (data ++ tail) more ->
  readFrame c = (Frame (NewMesssageWithByte packet body),
                 set_rd c (push tail more)).
Proof.
  intros Hpol Henc Hrd.
  assert (Hok : framing_ok (NewMesssageWithByte packet body) = true).
  { unfold framing_ok. simpl. destruct Hpol as [-> | ->]; reflexivity. }
  assert (Hb : isBodiless packet = false).
  { destruct (isBodiless packet) eqn:E; [|reflexivity].
    apply framingPolicy_bodiless in E. destruct Hpol; congruence. }
  pose proof (readFrame_encoded _ data tail more c Hok Henc Hrd) as H.
  unfold as_decoded in H. simpl in H. rewrite Hb in H. exact H.
Qed.

Lemma NewMesssageWithByte_roundtrip_witness :
  readFrame (conn_of [[x0b; x01; x21; x04]] None)
  = (Frame (NewMesssageWithByte Halt x21),
     set_rd (conn_of [[x0b; x01; x21; x04]] None) (push [x04] [])).
Proof.
  exact (NewMesssageWithByte_roundtrip Halt x21 [x0b; x01; x21] [x04] []
           (conn_of [[x0b; x01; x21; x04]] None)
           (or_intror eq_refl) eq_refl eq_refl).
Defined.

(** ** The inbound direction, frame after frame *)

Lemma encode_all_cons_inv (m : Message) (ms : list Message)
      (datas : list (list byte)) :
  encode_all (m :: ms) = Some datas ->
  exists d ds,
    MarshalBinary m = (Some d, None) /\ encode_all ms = Some ds /\
    datas = d :: ds.
Proof.
  simpl. destruct (MarshalBinary m) as [[d|] [e|]]; try discriminate.
  destruct (encode_all ms) as [ds|]; [|discriminate].
  intros [= <-]. eauto.
Qed.

Lemma deliveries_run (ms : list Message) :
  forall (datas : list (list byte)) (s : Pump) (tail : list byte)
         (more : list (list byte)),
    Forall (fun m => framing_ok m = true) ms ->
    encode_all ms = Some datas ->
    crashed s = None -> in_closed s = false -> reader s = RRead ->
    rd (conn s) = push (concat datas ++ tail) more ->
    run (deliveries (length ms)) s
    = Some (mkPump (set_rd (conn s) (push tail more)) false (out_closed s)
                   RRead (writer s) (inbox s ++ map as_decoded ms)
                   (stderr s) None).
Proof.
  induction ms as [|m ms IH]; intros datas s tail more Hok Henc Hc Hin Hr Hrd.
  - injection Henc as <-. simpl in Hrd. simpl. rewrite <- Hrd, set_rd_rd.
    rewrite app_nil_r. destruct s; simpl in *; subst; reflexivity.
  - apply encode_all_cons_inv in Henc. destruct Henc as (d & ds & Hm & Hms & ->).
    inversion Hok as [|? ? Hokm Hokms]; subst.
    simpl in Hrd. rewrite <- app_assoc in Hrd.
    pose proof (readFrame_encoded m d (concat ds ++ tail) more (conn s)
                                  Hokm Hm Hrd) as Hdec.
    cbn [length deliveries run].
    unfold step at 1, reader_step. rewrite Hc, Hr, Hdec. cbv beta iota.
    unfold step at 1, app_recv. cbn [crashed in_closed reader].
    rewrite Hin. cbv beta iota.
    rewrite (IH ds _ tail more Hokms Hms); cbn; auto.
    now rewrite <- app_assoc.
Qed.

(** X6.  Frames are delivered in wire order.  When the encodings of the
    well-framed messages [ms], one after the other, are at hand on a new
    connection, the reader and the application taking turns deliver
    exactly those messages, in that order, to the application; nothing is
    printed, both channels stay open, and the stream is left where the
    last frame ends. *)
Theorem inbound_order_preserved
        (ms : list Message) (datas : list (list byte)) (c : Conn)
        (tail : list byte) (more : list (list byte)) :
  Forall (fun m => framing_ok m = true) ms ->
  encode_all ms = Some datas ->
  rd c = push (concat datas ++ tail) more ->
  run (deliveries (length ms)) (MessageChannel c)
  = Some (mkPump (set_rd c (push tail more)) false false RRead WRecv
                 (map as_decoded ms) [] None).
Proof.
  intros Hok Henc Hrd.
  exact (deliveries_run ms datas (MessageChannel c) tail more Hok Henc
                        eq_refl eq_refl eq_refl Hrd).
Qed.

Lemma inbound_order_preserved_witness :
  run (deliveries 3)
      (MessageChannel (conn_of [[x00; x01; x04; x05; x02; x68; x69; xff]] None))
  = Some (mkPump
            (set_rd (conn_of [[x00; x01; x04; x05; x02; x68; x69; xff]] None)
                    [[xff]])
            false false RRead WRecv
            [mkMessage ClientType (Some [x01]);
             mkMessage UploaderReady None;
             mkMessage FileName (Some [x68; x69])] [] None).
Proof.
  apply (inbound_order_preserved
           [mkMessage ClientType (Some [x01]);
            mkMessage UploaderReady (Some []);
            mkMessage FileName (Some [x68; x69])]
           [[x00; x01]; [x04]; [x05; x02; x68; x69]]
           (conn_of [[x00; x01; x04; x05; x02; x68; x69; xff]] None)
           [xff] []).
  - repeat constructor.
  - reflexivity.
  - reflexivity.
Defined.

(** ** What a decode takes from the stream *)


Lemma Read_stream (c c' : Conn) (p p' : list byte) (n : nat) (e : option error) :
  Read c p = ((p', n, e), c') ->
  exists got, stream c = got ++ stream c' /\ length got <= length p.
Proof.
  unfold Read, stream. destruct p as [|b p].
  - intros [= _ _ _ <-]. exists []. split; [reflexivity | simpl; lia].
  - destruct (rd c) as [|seg segs] eqn:Hrd.
    + intros [= _ _ _ <-]. exists []. rewrite Hrd. split; [reflexivity | simpl; lia].
    + cbv zeta. exists (firstn (length (b :: p)) seg).
      split; [|apply firstn_le_length].
      rewrite <- (firstn_skipn (length (b :: p)) seg) at 1.
      destruct (skipn (length (b :: p)) seg) eqn:Hs;
        injection H as _ _ _ <-; simpl; rewrite <- ?app_assoc;
        rewrite ?app_nil_r; reflexivity.
Qed.

Lemma Read_buffer_length (c c' : Conn) (p p' : list byte) (n : nat)
      (e : option error) :
  Read c p = ((p', n, e), c') -> length p' = length p.
Proof.
  intros H. pose proof (Read_length c p) as Hl. now rewrite H in Hl.
Qed.

Lemma stream_set_rd_nil (c : Conn) : stream (set_rd c []) = [].
Proof. reflexivity. Qed.



Lemma wire_size_bodiless (p : Packet) (b : slice) :
  isBodiless p = true -> wire_size (mkMessage p b) = 1.
Proof.
  intros H. unfold wire_size. simpl msgPacket.
  apply framingPolicy_bodiless in H. now rewrite H.
Qed.

Lemma wire_size_fixed (p : Packet) (n : uint8) (b : slice) :
  isBodiless p = false -> map_index fixedLengthPackets p = Some n ->
  wire_size (mkMessage p b) = 1 + len b.
Proof.
  intros Hb Hf. unfold wire_size, framingPolicy. simpl msgPacket.
  now rewrite Hb, Hf.
Qed.

Lemma wire_size_variable (p : Packet) (b : slice) :
  isBodiless p = false -> map_index fixedLengthPackets p = None ->
  wire_size (mkMessage p b) = 2 + len b.
Proof.
  intros Hb Hf. unfold wire_size, framingPolicy. simpl msgPacket.
  now rewrite Hb, Hf.
Qed.

(** X8.  A decode never reads past its frame: what it takes from the
    stream is a prefix of the stream of at most as many bytes as the
    frame of the message it produces takes on the wire (one byte for a
    bodiless kind, the kind byte and the body for a fixed kind, two bytes
    and the body for a variable kind), whether the reads were full or
    short. *)
Theorem readFrame_never_overreads (c c' : Conn) (m : Message) :
  readFrame c = (Frame m, c') ->
  exists consumed,
    stream c = consumed ++ stream c' /\ length consumed <= wire_size m.
Proof.
  unfold readFrame.
  destruct (Read c (make 1)) as [[[b1 n1] e1] c1] eqn:E1.
  pose proof (Read_stream _ _ _ _ _ _ E1) as (g1 & S1 & L1).
  rewrite length_make in L1.
  destruct e1 as [e1|]; [discriminate|].
  destruct (isBodiless (nth 0 b1 x00)) eqn:Hb.
  { intros [= <- <-]. exists g1. split; [exact S1|].
    rewrite wire_size_bodiless by assumption. exact L1. }
  destruct (map_index fixedLengthPackets (nth 0 b1 x00)) as [n0|] eqn:Hf.
  - destruct (Read c1 (make (Byte.to_nat n0))) as [[[b2 n2] e2] c2] eqn:E2.
    pose proof (Read_stream _ _ _ _ _ _ E2) as (g2 & S2 & L2).
    pose proof (Read_buffer_length _ _ _ _ _ _ E2) as B2.
    destruct e2 as [e2|]; [discriminate|].
    intros [= <- <-]. exists (g1 ++ g2).
    split; [now rewrite S1, S2, app_assoc|].
    rewrite (wire_size_fixed _ n0) by assumption.
    rewrite length_app. simpl len. lia.
  - destruct (Read c1 (make 1)) as [[[b2 n2] e2] c2] eqn:E2.
    pose proof (Read_stream _ _ _ _ _ _ E2) as (g2 & S2 & L2).
    rewrite length_make in L2.
    destruct e2 as [e2|]; [discriminate|].
    destruct (Read c2 (make (Byte.to_nat (nth 0 b2 x00))))
      as [[[b3 n3] e3] c3] eqn:E3.
    pose proof (Read_stream _ _ _ _ _ _ E3) as (g3 & S3 & L3).
    pose proof (Read_buffer_length _ _ _ _ _ _ E3) as B3.
    destruct e3 as [e3|]; [discriminate|].
    intros [= <- <-]. exists (g1 ++ g2 ++ g3).
    split; [now rewrite S1, S2, S3, <- !app_assoc|].
    rewrite wire_size_variable by assumption.
    rewrite !length_app. simpl len. lia.
Qed.

Lemma readFrame_never_overreads_witness :
  exists consumed,
    stream (conn_of [[x05; x03; x61]; [x62; x63]] None)
    = consumed ++
      stream (set_rd (conn_of [[x05; x03; x61]; [x62; x63]] None) [[x62; x63]]) /\
    length consumed <= wire_size (mkMessage FileName (Some [x61; x00; x00])).
Proof.
  exact (readFrame_never_overreads
           (conn_of [[x05; x03; x61]; [x62; x63]] None)
           (set_rd (conn_of [[x05; x03; x61]; [x62; x63]] None) [[x62; x63]])
           (mkMessage FileName (Some [x61; x00; x00])) eq_refl).
Defined.

(** ** The first failure *)




(** X10.  The writer's teardown on a message it cannot encode.  When
    both channels are open and the writer waits on [out], enqueueing a
    message of a variable kind with more than 255 body bytes makes the
    writer print one write-error line with the remote address and the
    encoding error, close both channels and end, without a panic; not
    one byte of the message reaches the connection. *)
Theorem writer_teardown_on_encoding_error (s : Pump) (m : Message) :
  crashed s = None ->
  writer s = WRecv ->
  in_closed s = false ->
  out_closed s = false ->
  framingPolicy (msgPacket m) = variable ->
  255 < len (msgBody m) ->
  run [enqueue m; writer_moves; writer_moves] s
  = Some (mkPump (conn s) true true (reader s) (WExit returned) (inbox s)
                 (stderr s ++
                  [write_error_line (RemoteAddr (conn s))
                                    (body_too_long (len (msgBody m)))])
                 None).
Proof.
  intros Hc Hw Hi Ho Hpol Hlen.
  apply framingPolicy_variable in Hpol. destruct Hpol as (Hb & Hf).
  assert (Henc : MarshalBinary m = (None, Some (body_too_long (len (msgBody m))))).
  { rewrite MarshalBinary_variable by assumption.
    destruct (Nat.ltb_spec 255 (len (msgBody m))); [reflexivity | lia]. }
  cbn [run]. unfold step at 1, app_send, writer_received.
  rewrite Hc, Ho, Hw, Henc. cbv beta iota.
  unfold step at 1, writer_step.
  cbn [crashed writer run_deferred in_closed out_closed].
  rewrite ?Ho. cbv beta iota.
  unfold step, writer_step.
  cbn [crashed writer run_deferred in_closed out_closed].
  rewrite ?Hi. reflexivity.
Qed.

Lemma writer_teardown_on_encoding_error_witness :
  run [enqueue (mkMessage FileName (Some (make 300)));
       writer_moves; writer_moves]
      (MessageChannel (conn_of [] None))
  = Some (mkPump (conn_of [] None) true true RRead (WExit returned) []
                 [write_error_line "peer" (body_too_long 300)] None).
Proof.
  apply (writer_teardown_on_encoding_error
           (MessageChannel (conn_of [] None))
           (mkMessage FileName (Some (make 300)))); try reflexivity.
  vm_compute. lia.
Defined.

(** X11.  The writer's teardown on a failed write.  When both channels
    are open, the writer waits on [out] and the connection accepts fewer
    bytes than the encoding of the enqueued message has, the writer
    hands the encoding to [conn.Write] once, prints one write-error line
    with the remote address and the connection's error, closes both
    channels and ends, without a panic and without a second [Write]. *)
Theorem writer_teardown_on_write_error
        (s : Pump) (m : Message) (data : list byte) (q : nat) :
  crashed s = None ->
  writer s = WRecv ->
  in_closed s = false ->
  out_closed s = false ->
  MarshalBinary m = (Some data, None) ->
  wquota (conn s) = Some q ->
  q < length data ->
  run [enqueue m; writer_moves; writer_moves; writer_moves] s
  = Some (mkPump (set_wr (conn s) (Some 0) (wlog (conn s) ++ [firstn q data]))
                 true true (reader s) (WExit returned) (inbox s)
                 (stderr s ++
                  [write_error_line (RemoteAddr (conn s)) (wr_err (conn s))])
                 None).
Proof.
  intros Hc Hw Hi Ho Henc Hq Hlt.
  cbn [run]. unfold step at 1, app_send, writer_received.
  rewrite Hc, Ho, Hw, Henc. cbv beta iota.
  unfold step at 1, writer_step. cbn [crashed writer conn bytes_of].
  unfold Write. rewrite Hq.
  destruct (Nat.leb_spec (length data) q); [lia|]. cbv beta iota.
  unfold step at 1, writer_step.
  cbn [crashed writer run_deferred in_closed out_closed].
  rewrite ?Ho. cbv beta iota.
  unfold step, writer_step.
  cbn [crashed writer run_deferred in_closed out_closed].
  rewrite ?Hi. reflexivity.
Qed.

Lemma writer_teardown_on_write_error_witness :
  run [enqueue (mkMessage FileName (Some [x68; x69]));
       writer_moves; writer_moves; writer_moves]
      (MessageChannel (conn_of [] (Some 3)))
  = Some (mkPump (set_wr (conn_of [] (Some 3)) (Some 0) [[x05; x02; x68]])
                 true true RRead (WExit returned) []
                 [write_error_line "peer" (net_error "broken pipe")] None).
Proof.
  apply (writer_teardown_on_write_error
           (MessageChannel (conn_of [] (Some 3)))
           (mkMessage FileName (Some [x68; x69]))
           [x05; x02; x68; x69] 3); try reflexivity.
  simpl. lia.
Defined.

(** ** Invariants of the pump *)

Lemma run_deferred_cases (d d' : deferred) (inc outc inc' outc' : bool)
      (cr : option panic) :
  run_deferred d inc outc = Some (inc', outc', d', cr) ->
  (exists p p', d = closing_out p /\ d' = closing_in p' /\
                inc' = inc /\ outc' = true /\ cr = None) \/
  (exists p, d = closing_in p /\ d' = returned /\
             inc' = true /\ outc' = outc /\
             (inc = true -> cr = Some close_of_closed_channel)).
Proof.
  destruct d as [p|p|]; simpl; [destruct outc | destruct inc | discriminate];
    intros [= <- <- <- <-]; [left | left | right | right]; eauto 10.
  eexists. repeat split. discriminate.
Qed.

Ltac deferred_cases :=
  match goal with
  | Hd : run_deferred _ _ _ = Some _ |- _ =>
      apply run_deferred_cases in Hd;
      destruct Hd as [(? & ? & -> & -> & -> & -> & ->)
                     |(? & -> & -> & -> & -> & ?)]
  end.

Lemma step_not_crashed (a : action) (s s' : Pump) :
  step a s = Some s' -> crashed s = None.
Proof. unfold step. destruct (crashed s); [discriminate | reflexivity]. Qed.

Lemma shutdown_inv_step (a : action) (s s' : Pump) :
  shutdown_inv s -> step a s = Some s' -> shutdown_inv s'.
Proof.
  unfold shutdown_inv, reader_returned, writer_returned.
  intros [H1 H2] H. pose proof (step_not_crashed a s s' H) as Hc.
  destruct a; step_cases H; cbn [reader writer in_closed crashed];
    try deferred_cases; cbn [orb andb] in *.
  all: try (split; [assumption || (intros; discriminate) || auto
                   | intros; try discriminate; auto; congruence]).
  all: split; [intros Hb; specialize (H1 Hb); congruence
             | intros Hb; specialize (H2 Hb); congruence].
Qed.

Lemma shutdown_inv_run (sched : list action) : forall s s' : Pump,
  shutdown_inv s -> run sched s = Some s' -> shutdown_inv s'.
Proof.
  induction sched as [|a sched IH]; intros s s' Hinv Hrun; simpl in Hrun.
  - now injection Hrun as <-.
  - destruct (step a s) as [s1|] eqn:Hstep; [|discriminate].
    eapply IH; [|exact Hrun]. eapply shutdown_inv_step; eassumption.
Qed.

(** X12.  The pump cannot end quietly.  In every run, once both
    goroutines have returned the program has died of the panic
    [close of closed channel]: each goroutine closes both channels on its
    way out, so the second one to leave closes a channel that is closed
    already. *)
Theorem both_returned_means_panic (c : Conn) (sched : list action) (s : Pump) :
  run sched (MessageChannel c) = Some s ->
  reader s = RExit returned ->
  writer s = WExit returned ->
  in_closed s = true /\ crashed s = Some close_of_closed_channel.
Proof.
  intros Hrun Hr Hw.
  assert (H0 : shutdown_inv (MessageChannel c)).
  { split; cbn; discriminate. }
  destruct (shutdown_inv_run sched _ _ H0 Hrun) as [H1 H2].
  unfold reader_returned, writer_returned in H1, H2.
  rewrite Hr, Hw in H1, H2. split; [apply H1 | apply H2]; reflexivity.
Qed.

Lemma both_returned_means_panic_witness :
  in_closed
    (mkPump (conn_of [] None) true true (RExit returned) (WExit returned)
       []
       [write_error_line "peer" (body_too_long 256);
        read_error_line "peer" io_EOF]
       (Some close_of_closed_channel)) = true /\
  crashed
    (mkPump (conn_of [] None) true true (RExit returned) (WExit returned)
       []
       [write_error_line "peer" (body_too_long 256);
        read_error_line "peer" io_EOF]
       (Some close_of_closed_channel)) = Some close_of_closed_channel.
Proof.
  exact (both_returned_means_panic
           (conn_of [] None)
           [enqueue (mkMessage Halt (Some (make 256)));
            writer_moves; reader_moves; writer_moves;
            reader_moves; reader_moves]
           (mkPump (conn_of [] None) true true (RExit returned) (WExit returned)
                   []
                   [write_error_line "peer" (body_too_long 256);
                    read_error_line "peer" io_EOF]
                   (Some close_of_closed_channel))
           eq_refl eq_refl eq_refl).
Defined.


Lemma quiet_inv_step (a : action) (s s' : Pump) :
  quiet_inv s -> step a s = Some s' -> quiet_inv s'.
Proof.
  unfold quiet_inv, reader_exiting, writer_exiting.
  intros Hinv H.
  destruct a; step_cases H; cbn [stderr in_closed out_closed crashed reader writer];
    intros Hq; try (now apply app_eq_nil in Hq; destruct Hq; discriminate);
    specialize (Hinv Hq); destruct Hinv as (Hi & Ho & Hc & Hr & Hw);
    try discriminate; try congruence;
    repeat split; auto.
Qed.

Lemma quiet_inv_run (sched : list action) : forall s s' : Pump,
  quiet_inv s -> run sched s = Some s' -> quiet_inv s'.
Proof.
  induction sched as [|a sched IH]; intros s s' Hinv Hrun; simpl in Hrun.
  - now injection Hrun as <-.
  - destruct (step a s) as [s1|] eqn:Hstep; [|discriminate].
    eapply IH; [|exact Hrun]. eapply quiet_inv_step; eassumption.
Qed.

(** X13.  No teardown without a printed error.  In every run, as long as
    nothing has been printed to standard error, both channels are open,
    both goroutines are in their loops and there has been no panic: a
    channel is closed only after [handleReadError] or [handleWriteError]
    has reported the failure. *)
Theorem no_teardown_without_report (c : Conn) (sched : list action) (s : Pump) :
  run sched (MessageChannel c) = Some s ->
  stderr s = [] ->
  in_closed s = false /\ out_closed s = false /\ crashed s = None /\
  reader_exiting s = false /\ writer_exiting s = false.
Proof.
  intros Hrun Hq.
  assert (H0 : quiet_inv (MessageChannel c)).
  { intros _. repeat split. }
  exact (quiet_inv_run sched _ _ H0 Hrun Hq).
Qed.

Lemma no_teardown_without_report_witness :
  in_closed
    (mkPump (set_wr (set_rd (conn_of [[x04; x05; x00]] None) []) None [[x03]])
       false false
       (RSend (mkMessage FileName (Some []))) WRecv
       [mkMessage UploaderReady None] [] None) = false /\
  out_closed
    (mkPump (set_wr (set_rd (conn_of [[x04; x05; x00]] None) []) None [[x03]])
       false false
       (RSend (mkMessage FileName (Some []))) WRecv
       [mkMessage UploaderReady None] [] None) = false /\
  crashed
    (mkPump (set_wr (set_rd (conn_of [[x04; x05; x00]] None) []) None [[x03]])
       false false
       (RSend (mkMessage FileName (Some []))) WRecv
       [mkMessage UploaderReady None] [] None) = None /\
  reader_exiting
    (mkPump (set_wr (set_rd (conn_of [[x04; x05; x00]] None) []) None [[x03]])
       false false
       (RSend (mkMessage FileName (Some []))) WRecv
       [mkMessage UploaderReady None] [] None) = false /\
  writer_exiting
    (mkPump (set_wr (set_rd (conn_of [[x04; x05; x00]] None) []) None [[x03]])
       false false
       (RSend (mkMessage FileName (Some []))) WRecv
       [mkMessage UploaderReady None] [] None) = false.
Proof.
  exact (no_teardown_without_report
           (conn_of [[x04; x05; x00]] None)
           [enqueue (mkMessage PeerNotFound None); reader_moves; writer_moves;
            dequeue; reader_moves]
           (mkPump (set_wr (set_rd (conn_of [[x04; x05; x00]] None) []) None [[x03]])
                   false false
                   (RSend (mkMessage FileName (Some []))) WRecv
                   [mkMessage UploaderReady None] [] None)
           eq_refl eq_refl).
Defined.








(** ** The two directions and the connection *)

Lemma Write_conn (c : Conn) (data : list byte) :
  exists q l, snd (Write c data) = set_wr c q l.
Proof.
  unfold Write. destruct (wquota c) as [q|].
  - destruct (length data <=? q); do 2 eexists; reflexivity.
  - do 2 eexists; reflexivity.
Qed.

Lemma inbound_step_frame (a : action) (s s' : Pump) :
  inbound_move a = true -> step a s = Some s' ->
  wlog (conn s') = wlog (conn s) /\ wquota (conn s') = wquota (conn s) /\
  writer s' = writer s.
Proof.
  intros Ha H. destruct a; try discriminate Ha;
    step_cases H; cbn [conn writer]; auto;
    match goal with
    | HR : readFrame ?c = (_, ?c') |- _ =>
        let r := fresh "r" in
        let Hr := fresh "Hr" in
        destruct (readFrame_conn c) as [r Hr]; rewrite HR in Hr;
        cbn [snd] in Hr; subst c'; auto
    end.
Qed.

Lemma outbound_step_frame (a : action) (s s' : Pump) :
  inbound_move a = false -> step a s = Some s' ->
  rd (conn s') = rd (conn s) /\ inbox s' = inbox s /\ reader s' = reader s.
Proof.
  intros Ha H. destruct a; try discriminate Ha;
    step_cases H; cbn [conn reader inbox]; auto;
    match goal with
    | HW : Write ?c ?d = (_, ?c') |- _ =>
        let q := fresh "q" in
        let l := fresh "l" in
        let Hq := fresh "Hq" in
        destruct (Write_conn c d) as (q & l & Hq); rewrite HW in Hq;
        cbn [snd] in Hq; subst c'; auto
    end.
Qed.

(** X15.  The inbound direction never writes.  Along any run made of
    moves of the reader and of the application taking messages from
    [in], the connection's write log and write allowance and the state
    of the writer goroutine do not change: the reader calls only
    [conn.Read]. *)
Theorem reader_never_writes (sched : list action) : forall s s' : Pump,
  forallb inbound_move sched = true ->
  run sched s = Some s' ->
  wlog (conn s') = wlog (conn s) /\ wquota (conn s') = wquota (conn s) /\
  writer s' = writer s.
Proof.
  induction sched as [|a sched IH]; intros s s' Hall Hrun; simpl in *.
  - injection Hrun as <-. auto.
  - apply andb_prop in Hall. destruct Hall as [Ha Hall].
    destruct (step a s) as [s1|] eqn:Hstep; [|discriminate].
    destruct (inbound_step_frame a s s1 Ha Hstep) as (H1 & H2 & H3).
    destruct (IH s1 s' Hall Hrun) as (H4 & H5 & H6).
    repeat split; congruence.
Qed.

Lemma reader_never_writes_witness :
  wlog (set_rd (conn_of [[x04; x05]] (Some 7)) []) = wlog (conn_of [[x04; x05]] (Some 7)) /\
  wquota (set_rd (conn_of [[x04; x05]] (Some 7)) []) = wquota (conn_of [[x04; x05]] (Some 7)) /\
  WRecv = WRecv.
Proof.
  exact (reader_never_writes
           [reader_moves; dequeue; reader_moves; reader_moves; reader_moves]
           (MessageChannel (conn_of [[x04; x05]] (Some 7)))
           (mkPump (set_rd (conn_of [[x04; x05]] (Some 7)) []) true true
                   (RExit returned) WRecv [mkMessage UploaderReady None]
                   [read_error_line "peer" io_EOF] None)
           eq_refl eq_refl).
Defined.

(** X16.  The outbound direction never reads.  Along any run made of
    moves of the writer and of the application enqueueing on [out], the
    bytes still to be read from the connection, what the application has
    received and the state of the reader goroutine do not change: the
    writer calls only [conn.Write]. *)
Theorem writer_never_reads (sched : list action) : forall s s' : Pump,
  forallb (fun a => negb (inbound_move a)) sched = true ->
  run sched s = Some s' ->
  rd (conn s') = rd (conn s) /\ inbox s' = inbox s /\ reader s' = reader s.
Proof.
  induction sched as [|a sched IH]; intros s s' Hall Hrun; simpl in *.
  - injection Hrun as <-. auto.
  - apply andb_prop in Hall. destruct Hall as [Ha Hall].
    apply negb_true_iff in Ha.
    destruct (step a s) as [s1|] eqn:Hstep; [|discriminate].
    destruct (outbound_step_frame a s s1 Ha Hstep) as (H1 & H2 & H3).
    destruct (IH s1 s' Hall Hrun) as (H4 & H5 & H6).
    repeat split; congruence.
Qed.

Lemma writer_never_reads_witness :
  rd (set_wr (conn_of [[x04; x05]] (Some 1)) (Some 0) [[x03]; []])
  = rd (conn_of [[x04; x05]] (Some 1)) /\
  @nil Message = [] /\ RRead = RRead.
Proof.
  exact (writer_never_reads
           [enqueue (mkMessage PeerNotFound None); writer_moves;
            enqueue (mkMessage UploaderReady None); writer_moves;
            writer_moves; writer_moves]
           (MessageChannel (conn_of [[x04; x05]] (Some 1)))
           (mkPump (set_wr (conn_of [[x04; x05]] (Some 1)) (Some 0) [[x03]; []])
                   true true RRead (WExit returned) []
                   [write_error_line "peer" (net_error "broken pipe")] None)
           eq_refl eq_refl).
Defined.

(** ** The earlier revision *)

Lemma variable_not_Rev0_bodiless (p : Packet) :
  framingPolicy p = variable -> Rev0.isBodiless p = false.
Proof. destruct p; vm_compute; congruence. Qed.

(** X17.  In the earlier revision, [Mtob] of a bodiless packet ([Ping] or
    [Pong]) is a whole frame: that revision's reader decodes it to the
    message with that packet and a nil body, and consumes that one byte
    only. *)
Theorem Rev0_Mtob_roundtrip
        (p : Packet) (tail : list byte) (more : list (list byte)) (c : Conn) :
  Rev0.isBodiless p = true ->
  rd c = push (Rev0.Mtob p ++ tail) more ->
  Rev0.readFrame c = (Frame (mkMessage p None), set_rd c (push tail more)).
Proof.
  intros Hb Hrd. unfold Rev0.readFrame.
  rewrite (Read_kind c p tail more Hrd). simpl nth. now rewrite Hb.
Qed.

Lemma Rev0_Mtob_roundtrip_witness :
  Rev0.readFrame (conn_of [[x01; x00]] None)
  = (Frame (mkMessage Rev0.Pong None), set_rd (conn_of [[x01; x00]] None) [[x00]]).
Proof.
  exact (Rev0_Mtob_roundtrip Rev0.Pong [x00] [] (conn_of [[x01; x00]] None)
                             eq_refl eq_refl).
Defined.

(** X18.  The two revisions frame alike every kind that is variable in
    the current one (0x05, 0x09, 0x0A, 0x0B and all undeclared values):
    on any connection whose next byte is such a kind, the earlier
    reader's decode and the current reader's decode give the same result
    and leave the connection in the same state, whatever follows and
    however the reads turn out. *)
Theorem revisions_agree_on_variable_kinds
        (p : Packet) (tail : list byte) (more : list (list byte)) (c : Conn) :
  framingPolicy p = variable ->
  rd c = push (p :: tail) more ->
  Rev0.readFrame c = readFrame c.
Proof.
  intros Hpol Hrd.
  pose proof (variable_not_Rev0_bodiless p Hpol) as Hb0.
  apply framingPolicy_variable in Hpol. destruct Hpol as (Hb & Hf).
  unfold Rev0.readFrame, readFrame.
  rewrite (Read_kind c p tail more Hrd). simpl nth.
  rewrite Hb0, Hb, Hf.
  destruct (Read (set_rd c (push tail more)) (make 1)) as [[[b2 n2] e2] c2].
  destruct e2; reflexivity.
Qed.

Lemma revisions_agree_on_variable_kinds_witness :
  Rev0.readFrame (conn_of [[x09; x04; x6f]; [x6f; x70; x73]] None)
  = readFrame (conn_of [[x09; x04; x6f]; [x6f; x70; x73]] None).
Proof.
  exact (revisions_agree_on_variable_kinds
           ProtocolError [x04; x6f] [[x6f; x70; x73]]
           (conn_of [[x09; x04; x6f]; [x6f; x70; x73]] None)
           eq_refl eq_refl).
Defined.

(** ** Progress of the outbound direction *)

Lemma sends_run (ms : list Message) :
  forall (datas : list (list byte)) (s : Pump),
    encode_all ms = Some datas ->
    crashed s = None -> out_closed s = false -> writer s = WRecv ->
    wquota (conn s) = None ->
    run (sends ms) s
    = Some (mkPump (set_wr (conn s) None (wlog (conn s) ++ datas))
                   (in_closed s) false (reader s) WRecv (inbox s) (stderr s)
                   None).
Proof.
  induction ms as [|m ms IH]; intros datas s Henc Hc Ho Hw Hq.
  - injection Henc as <-. simpl. rewrite app_nil_r.
    destruct s as [c ? ? ? ? ? ? ?]; destruct c; simpl in *; subst. reflexivity.
  - apply encode_all_cons_inv in Henc. destruct Henc as (d & ds & Hm & Hms & ->).
    cbn [sends run]. unfold step at 1, app_send, writer_received.
    rewrite Hc, Ho, Hw, Hm. cbv beta iota.
    unfold step at 1, writer_step. cbn [crashed writer conn bytes_of].
    unfold Write. rewrite Hq. cbv beta iota.
    rewrite (IH ds); cbn; auto.
    now rewrite <- app_assoc.
Qed.

(** X19.  The writer keeps up.  On a new connection that accepts every
    write, for any messages that all encode, the application can enqueue
    them one after the other, the writer writing each in between; at the
    end the writes made are exactly their encodings, one [Write] per
    message and in order, nothing has been printed, both channels are
    open and the writer waits for the next message. *)
Theorem outbound_progress
        (ms : list Message) (datas : list (list byte)) (c : Conn) :
  encode_all ms = Some datas ->
  wquota c = None ->
  run (sends ms) (MessageChannel c)
  = Some (mkPump (set_wr c None (wlog c ++ datas)) false false RRead WRecv
                 [] [] None).
Proof.
  intros Henc Hq.
  exact (sends_run ms datas (MessageChannel c) Henc eq_refl eq_refl eq_refl Hq).
Qed.

Lemma outbound_progress_witness :
  run (sends [mkMessage ClientType (Some [x01]); mkMessage UploaderReady None;
              mkMessage Halt (Some [x68; x69])])
      (MessageChannel (conn_of [] None))
  = Some (mkPump (set_wr (conn_of [] None) None
                         ([] ++ [[x00; x01]; [x04]; [x0b; x02; x68; x69]]))
                 false false RRead WRecv [] [] None).
Proof.
  exact (outbound_progress
           [mkMessage ClientType (Some [x01]); mkMessage UploaderReady None;
            mkMessage Halt (Some [x68; x69])]
           [[x00; x01]; [x04]; [x0b; x02; x68; x69]]
           (conn_of [] None) eq_refl eq_refl).
Defined.

(** ** A frame that arrives after the writer has closed the channels *)


